(** * UWB localizer: a shallow embedding of [uwb_localizer/core.py] and of the
      serial framing helpers of [uwb_localizer/input_adapters.py].

    Conventions of the embedding.
    - Python [float] values are idealised as real numbers ([R]); rounding,
      infinities and NaN are outside the model.
    - Python [int] values that are used as list indices or lengths are [nat];
      anchor identifiers and [z_sign] are [Z].
    - [bytes] is [list byte].
    - A [dict] is an association list in insertion order with pairwise
      distinct keys; [len] is its length.
    - A raised exception is the left injection of a [sum]; where an object is
      mutated before an exception escapes, the state is threaded explicitly
      and survives the exception. *)

From Stdlib Require Import String ZArith Bool Arith Lia Reals Lra List.
From Stdlib.Strings Require Import Byte.
Import ListNotations.

Set Implicit Arguments.

(** ** Exceptions *)

(** The exception classes that the modelled code raises itself, plus
    [ExternalError] for an exception coming out of a third-party call whose
    class is neither [ValueError] nor one of its subclasses.  The message of a
    [ValueError] is the fixed leading text of the formatted message. *)
Inductive exn : Type :=
| ValueError (msg : string)
| IndexError (msg : string)
| KeyError (key : Z)
| struct_error (msg : string)
| ExternalError (cls : string) (msg : string).

Definition result (A : Type) : Type := (exn + A)%type.

Definition is_ValueError (e : exn) : bool :=
  match e with ValueError _ => true | _ => false end.

(** Exceptions with a mutable receiver: the state after the call is returned
    whether or not the call raised. *)
Definition M (S A : Type) : Type := S -> result A * S.

Definition ret {S A} (a : A) : M S A := fun s => (inr a, s).
Definition bind {S A B} (m : M S A) (k : A -> M S B) : M S B :=
  fun s => match m s with
           | (inl e, s') => (inl e, s')
           | (inr a, s') => k a s'
           end.

Declare Scope py_scope.
Delimit Scope py_scope with py.
Notation "x <- m ;; k" := (bind m (fun x => k))
  (at level 61, m at next level, right associativity) : py_scope.
Notation "m ;;; k" := (bind m (fun _ => k))
  (at level 61, right associativity) : py_scope.

(** [for x in xs: body x] *)
Fixpoint for_each {S A} (xs : list A) (body : A -> M S unit) : M S unit :=
  match xs with
  | [] => ret tt
  | x :: xs' => (body x ;;; for_each xs' body)%py
  end.

(** ** Dictionaries keyed by anchor id *)

Definition dict (V : Type) : Type := list (Z * V).

Definition keys {V} (d : dict V) : list Z := map fst d.

Fixpoint dict_get {V} (d : dict V) (k : Z) : option V :=
  match d with
  | [] => None
  | (k', v) :: d' => if Z.eqb k k' then Some v else dict_get d' k
  end.

(** [d[k] = v]: overwrite in place, or append a new key at the end. *)
Fixpoint dict_set {V} (d : dict V) (k : Z) (v : V) : dict V :=
  match d with
  | [] => [(k, v)]
  | (k', v') :: d' =>
      if Z.eqb k k' then (k', v) :: d' else (k', v') :: dict_set d' k v
  end.

Definition dict_mem {V} (d : dict V) (k : Z) : bool :=
  match dict_get d k with Some _ => true | None => false end.

(** [d[k]] as an expression: [KeyError] on a missing key. *)
Definition dict_item {V} (d : dict V) (k : Z) : result V :=
  match dict_get d k with
  | Some v => inr v
  | None => inl (KeyError k)
  end.

(** The loop [out = {}; for k, v in d.items(): if <f k v is kept>: out[k] = w]. *)
Definition dict_collect {V W} (f : Z -> V -> option W) (d : dict V) : dict W :=
  fold_left
    (fun out kv =>
       match f (fst kv) (snd kv) with
       | Some w => dict_set out (fst kv) w
       | None => out
       end)
    d [].

(** The same dictionary written as a comprehension,
    [{k: w for k, v in d.items() if <f k v is kept>}]. *)
Definition dict_comprehension {V W} (f : Z -> V -> option W) (d : dict V) : dict W :=
  flat_map
    (fun kv =>
       match f (fst kv) (snd kv) with
       | Some w => [(fst kv, w)]
       | None => []
       end)
    d.

(** Sequencing of calls that may raise, without a receiver. *)
Definition rbind {A B} (r : result A) (k : A -> result B) : result B :=
  match r with
  | inl e => inl e
  | inr a => k a
  end.

Fixpoint rmap {A B} (f : A -> result B) (l : list A) : result (list B) :=
  match l with
  | [] => inr []
  | a :: l' => rbind (f a) (fun b => rbind (rmap f l') (fun bs => inr (b :: bs)))
  end.

(** ** Comparisons on reals as booleans *)

Definition Rleb (x y : R) : bool := if Rle_dec x y then true else false.
Definition Rltb (x y : R) : bool := if Rlt_dec x y then true else false.

Arguments Rleb : simpl never.
Arguments Rltb : simpl never.

(** * input_adapters.py: Message and CircularBuffer *)

Module InputAdapters.

Definition bytes : Type := list byte.

Definition byte_val (b : byte) : Z := Z.of_N (Byte.to_N b).

(** The separator of [CircularBuffer.append]: [b'\xff\xff\xff\x00']. *)
Definition delimiter : bytes := [xff; xff; xff; x00].

Fixpoint starts_with (p s : bytes) : bool :=
  match p, s with
  | [], _ => true
  | _ :: _, [] => false
  | a :: p', b :: s' => Byte.eqb a b && starts_with p' s'
  end.

(** [bytes.split(sep)] for the four-byte [delimiter]: leftmost,
    non-overlapping occurrences.  [skip] counts the bytes of a matched
    separator that are still to be passed over; [cur] is the current span,
    reversed. *)
Fixpoint split_from (skip : nat) (cur : bytes) (s : bytes) : list bytes :=
  match s with
  | [] => [rev cur]
  | c :: s' =>
      match skip with
      | S k => split_from k cur s'
      | O =>
          if starts_with delimiter s
          then rev cur :: split_from 3 [] s'
          else split_from 0 (c :: cur) s'
      end
  end.

Definition split (item : bytes) : list bytes := split_from 0 [] item.

(** *** class Message *)

Record Message : Type := mkMessage { id : Z; data : Z }.

(** [struct.unpack('<BI', data)]: one unsigned byte, then an unsigned 32-bit
    little-endian integer; any buffer that is not 5 bytes long is rejected. *)
Definition Message_init (d : bytes) : result Message :=
  match d with
  | [b0; b1; b2; b3; b4] =>
      inr {| id := byte_val b0;
             data := Z.lor (byte_val b1)
                       (Z.lor (Z.shiftl (byte_val b2) 8)
                          (Z.lor (Z.shiftl (byte_val b3) 16)
                             (Z.shiftl (byte_val b4) 24))) |}
  | _ => inl (struct_error "unpack requires a buffer of 5 bytes")
  end.

(** *** class CircularBuffer *)

Record CircularBuffer : Type := mkCircularBuffer {
  buffer : list bytes;
  head : nat;
  size : nat;
  tail : nat;
  element_size : nat
}.

(** [CircularBuffer.__init__(size, element_size=5)] *)
Definition CircularBuffer_init (size element_size : nat) : CircularBuffer :=
  {| buffer := repeat [x00] size;
     head := 0;
     size := 0;
     tail := 0;
     element_size := element_size |}.

Definition default_element_size : nat := 5.

(** [l[i] = x] for [i < len(l)] *)
Fixpoint list_set {A} (l : list A) (i : nat) (x : A) : list A :=
  match l, i with
  | [], _ => []
  | _ :: l', O => x :: l'
  | y :: l', S i' => y :: list_set l' i' x
  end.

(** The body of the [for item in items] loop of [append]. *)
Definition append_item (item : bytes) : M CircularBuffer unit :=
  fun self =>
    if Nat.eqb (length item) 0 then (inr tt, self)
    else if Nat.ltb (element_size self) (length item) then (inr tt, self)
    else if Nat.ltb (head self) (length (buffer self)) then
      (inr tt,
       {| buffer := list_set (buffer self) (head self) item;
          head := (head self + 1) mod length (buffer self);
          size := size self + 1;
          tail := tail self;
          element_size := element_size self |})
    else (inl (IndexError "list assignment index out of range"), self).

Definition clamp_size : M CircularBuffer unit :=
  fun self =>
    if Nat.ltb (length (buffer self)) (size self)
    then (inr tt,
          {| buffer := buffer self;
             head := head self;
             size := length (buffer self);
             tail := tail self;
             element_size := element_size self |})
    else (inr tt, self).

(** [CircularBuffer.append(item)] *)
Definition append (item : option bytes) : M CircularBuffer unit :=
  match item with
  | None => ret tt
  | Some item => (for_each (split item) append_item ;;; clamp_size)%py
  end.

(** [CircularBuffer.pop()] *)
Definition pop : M CircularBuffer (option bytes) :=
  fun self =>
    if Nat.eqb (size self) 0 then (inr None, self)
    else match nth_error (buffer self) (tail self) with
         | None => (inl (IndexError "list index out of range"), self)
         | Some item =>
             (inr (Some item),
              {| buffer := buffer self;
                 head := head self;
                 size := size self - 1;
                 tail := (tail self + 1) mod length (buffer self);
                 element_size := element_size self |})
         end.

(** Drivers and observations used to state properties of the buffer. *)

(** [for c in chunks: self.append(c)] *)
Definition append_all (chunks : list bytes) : M CircularBuffer unit :=
  for_each chunks (fun c => append (Some c)).

(** [n] successive calls of [pop], with the values returned. *)
Fixpoint pop_n (n : nat) : M CircularBuffer (list (option bytes)) :=
  match n with
  | O => ret []
  | S n' => (x <- pop ;; xs <- pop_n n' ;; ret (x :: xs))%py
  end.

(** The unread entries: the [size] slots from [tail] on, modulo the capacity. *)
Definition pending (self : CircularBuffer) : list bytes :=
  map (fun i => nth ((tail self + i) mod length (buffer self)) (buffer self) [])
      (seq 0 (size self)).

(** Indices and counter within the capacity, and the capacity positive. *)
Definition well_formed (self : CircularBuffer) : Prop :=
  (0 < length (buffer self) /\
   head self < length (buffer self) /\
   tail self < length (buffer self) /\
   size self <= length (buffer self))%nat.

(** Does the separator occur anywhere in [s]? *)
Fixpoint contains_delimiter (s : bytes) : bool :=
  match s with
  | [] => false
  | _ :: s' => starts_with delimiter s || contains_delimiter s'
  end.

(** *** SerialInputAdapter *)

(** [SerialInputAdapter.__init__]: [self.buffer = CircularBuffer(100, element_size=7)] *)
Definition SerialInputAdapter_buffer : CircularBuffer := CircularBuffer_init 100 7.

(** The state that one pass of [_read_loop] works on: the adapter's ring
    buffer and the local dictionary [ranges], which lives across passes. *)
Record loop_state : Type := mkLoopState {
  self_buffer : CircularBuffer;
  ranges : dict R
}.

(** [while self.buffer.size > 0: ...].  Every pass either raises or pops one
    item, so [size + 1] units of fuel are enough; [None] is fuel running out. *)
Fixpoint drain (fuel : nat) (st : loop_state) : option (result unit * loop_state) :=
  match fuel with
  | O => None
  | S fuel' =>
      if Nat.eqb (size (self_buffer st)) 0 then Some (inr tt, st)
      else
        match pop (self_buffer st) with
        | (inl e, b) => Some (inl e, {| self_buffer := b; ranges := ranges st |})
        | (inr None, b) => drain fuel' {| self_buffer := b; ranges := ranges st |}
        | (inr (Some msg), b) =>
            match Message_init msg with
            | inl e => Some (inl e, {| self_buffer := b; ranges := ranges st |})
            | inr message =>
                drain fuel'
                  {| self_buffer := b;
                     ranges := dict_set (ranges st) (id message)
                                 (IZR (data message) / 1000)%R |}
            end
        end
  end.

(** What one pass of the [while self.running] body does when
    [self.ser.in_waiting > 0] and [self.ser.read_all()] returned [response]:
    the new state, the argument of the callback if it was called, and the
    exception that the [except Exception] handler printed, if any. *)
Record pass_outcome : Type := mkPassOutcome {
  after : loop_state;
  delivered : option (dict R);
  reported : option exn
}.

(** [self.callback] is [None] or a callable that works on a state [W] of its
    own and may raise.  The call [self.callback(ranges.copy())] stands inside
    the [try]: when it raises, the handler prints the exception like any
    other and [ranges.clear()] is not reached. *)
Definition _read_loop_body {W : Type} (callback : option (dict R -> M W unit))
    (st : loop_state) (response : bytes) (w : W) : option (pass_outcome * W) :=
  match append (Some response) (self_buffer st) with
  | (inl e, b) =>
      Some ({| after := {| self_buffer := b; ranges := ranges st |};
               delivered := None; reported := Some e |}, w)
  | (inr _, b) =>
      match drain (S (size b)) {| self_buffer := b; ranges := ranges st |} with
      | None => None
      | Some (inl e, st') =>
          Some ({| after := st'; delivered := None; reported := Some e |}, w)
      | Some (inr _, st') =>
          match ranges st', callback with
          | _ :: _, Some cb =>
              match cb (ranges st') w with
              | (inl e, w') =>
                  Some ({| after := st';
                           delivered := Some (ranges st'); reported := Some e |}, w')
              | (inr _, w') =>
                  Some ({| after := {| self_buffer := self_buffer st'; ranges := [] |};
                           delivered := Some (ranges st'); reported := None |}, w')
              end
          | _, _ => Some ({| after := st'; delivered := None; reported := None |}, w)
          end
      end
  end.

End InputAdapters.

(** * core.py *)

Module Core.

Local Open Scope R_scope.

Definition position : Type := (R * R * R)%type.

(** [solve_position(d1, d2, d3, z_sign, eps, L2, L3)]; [eps] is accepted and
    never read, as in the source. *)
Definition solve_position (d1 d2 d3 : R) (z_sign : Z) (eps : R) (L2 L3 : R)
  : result position :=
  if Rleb L2 0 || Rleb L3 0
  then inl (ValueError "L2 and L3 must be positive")
  else
    let x := (L2 * L2 + d1 * d1 - d2 * d2) / (2 * L2) in
    let y := (L3 * L3 + d1 * d1 - d3 * d3) / (2 * L3) in
    let z2 := d1 * d1 - x * x - y * y in
    let z2 := if Rltb z2 0 then 0 else z2 in
    let z := sqrt z2 * (if (0 <=? z_sign)%Z then 1 else -1) in
    inr (x, y, z).

Definition calibrated_linear (k b x : R) : R := k * x + b.

Definition calibrated_quadratic (a b c x : R) : R := a * x ^ 2 + b * x + c.

Definition calibrated_cubic (a b c d x : R) : R :=
  a * x ^ 3 + b * x ^ 2 + c * x + d.

(** The loop that builds [non_zero_data]: only [None] values are skipped. *)
Definition non_zero_data (raw_data : dict (option R)) : dict R :=
  dict_collect (fun _ v => v) raw_data.

(** [list(set(non_zero_data.keys()) & set(anchor_positions.keys()))].  The
    order of a Python set is unspecified; the keys are listed here in the
    order of [non_zero_data]. *)
Definition matched_ids (non_zero : dict R) (anchor_positions : dict position)
  : list Z :=
  filter (dict_mem anchor_positions) (keys non_zero).

(** [if z_sign != 0: t.loc.z = abs(t.loc.z) * z_sign] *)
Definition force_z_sign (z_sign : Z) (loc : position) : position :=
  let '(x, y, z) := loc in
  (x, y, if (z_sign =? 0)%Z then z else Rabs z * IZR z_sign).

Section WithSolver.

(** The third-party [localization] package, as used between
    [P.add_anchor] and [P.solve()]: given the anchors added and the measures
    added to the single target, it leaves a location in [t.loc] or raises. *)
Variable lx_solve : list (Z * position) -> list (Z * R) -> result position.

(** [multilateration(raw_data, anchor_positions, z_sign)] *)
Definition multilateration (raw_data : dict (option R))
    (anchor_positions : dict position) (z_sign : Z) : result position :=
  let non_zero := non_zero_data raw_data in
  if (length non_zero <? 3)%nat
  then inl (ValueError "Not enough data for trilateration")
  else if (length anchor_positions <? 3)%nat
  then inl (ValueError "Not enough anchor positions for trilateration")
  else
    let matched := matched_ids non_zero anchor_positions in
    if (length matched <? 3)%nat
    then inl (ValueError "Not enough common anchors for trilateration")
    else
      rbind (rmap (fun i => rbind (dict_item anchor_positions i)
                              (fun p => inr (i, p))) matched)
        (fun anchors =>
      rbind (rmap (fun i => rbind (dict_item non_zero i)
                              (fun d => inr (i, d))) matched)
        (fun measures =>
      rbind (lx_solve anchors measures)
        (fun loc => inr (force_z_sign z_sign loc)))).

(** *** class LocalizationEngine *)

Record LocalizationEngine : Type := mkLocalizationEngine {
  anchor_positions : dict position;
  calibration_type : string;
  calibration_params : list R;
  z_sign : Z;
  min_range : R;
  max_range : R
}.

(** [LocalizationEngine.__init__]; a [calibration_params] of [None] becomes
    the empty list. *)
Definition LocalizationEngine_init (anchor_positions : dict position)
    (calibration_type : string) (calibration_params : option (list R))
    (z_sign : Z) (min_range max_range : R) : result LocalizationEngine :=
  let self :=
    {| anchor_positions := anchor_positions;
       calibration_type := calibration_type;
       calibration_params :=
         match calibration_params with Some l => l | None => [] end;
       z_sign := z_sign;
       min_range := min_range;
       max_range := max_range |} in
  if (length anchor_positions <? 3)%nat
  then inl (ValueError "At least 3 anchor positions are required for trilateration")
  else inr self.

(** [LocalizationEngine.calibrate] *)
Definition calibrate (self : LocalizationEngine) (raw_distance : R) : result R :=
  let p := calibration_params self in
  if String.eqb (calibration_type self) "linear" then
    if negb (length p =? 2)%nat
    then inl (ValueError "Linear calibration requires 2 parameters [k, b]")
    else inr (calibrated_linear (nth 0 p 0) (nth 1 p 0) raw_distance)
  else if String.eqb (calibration_type self) "quadratic" then
    if negb (length p =? 3)%nat
    then inl (ValueError "Quadratic calibration requires 3 parameters [a, b, c]")
    else inr (calibrated_quadratic (nth 0 p 0) (nth 1 p 0) (nth 2 p 0) raw_distance)
  else if String.eqb (calibration_type self) "cubic" then
    if negb (length p =? 4)%nat
    then inl (ValueError "Cubic calibration requires 4 parameters [a, b, c, d]")
    else inr (calibrated_cubic (nth 0 p 0) (nth 1 p 0) (nth 2 p 0) (nth 3 p 0)
                raw_distance)
  else inr raw_distance.

(** [LocalizationEngine.validate_range] *)
Definition validate_range (self : LocalizationEngine) (distance : R) : bool :=
  Rleb (min_range self) distance && Rleb distance (max_range self).

(** The loop of [calculate_position] that builds [valid_distances]. *)
Definition valid_distances (self : LocalizationEngine)
    (distances : dict (option R)) : dict R :=
  dict_collect
    (fun _ distance =>
       match distance with
       | Some d => if validate_range self d then Some d else None
       | None => None
       end)
    distances.

(** A [Dict[int, float]] handed to a parameter that tolerates [None]. *)
Definition present (d : dict R) : dict (option R) :=
  map (fun kv => (fst kv, Some (snd kv))) d.

(** [LocalizationEngine.calculate_position]: [except ValueError] turns a
    [ValueError] into [None]; any other exception leaves the method. *)
Definition calculate_position (self : LocalizationEngine)
    (distances : dict (option R)) : result (option position) :=
  let valid := valid_distances self distances in
  if (length valid <? 3)%nat then inr None
  else
    match multilateration (present valid) (anchor_positions self) (z_sign self) with
    | inr p => inr (Some p)
    | inl (ValueError _) => inr None
    | inl e => inl e
    end.

(** *** main.py: UWBLocalizerApp._on_distance_update *)

(** The calibration loop of [_on_distance_update]: an exception of
    [calibrate] leaves the loop. *)
Fixpoint calibrated_distances (engine : LocalizationEngine) (distances : dict R)
    (acc : dict R) : result (dict R) :=
  match distances with
  | [] => inr acc
  | (anchor_id, raw_distance) :: rest =>
      rbind (calibrate engine raw_distance)
        (fun calibrated =>
           calibrated_distances engine rest
             (if validate_range engine calibrated
              then dict_set acc anchor_id calibrated
              else acc))
  end.

(** [_on_distance_update] up to the value of [position]. *)
Definition _on_distance_update (engine : LocalizationEngine) (distances : dict R)
  : result (option position) :=
  rbind (calibrated_distances engine distances [])
    (fun calibrated => calculate_position engine (present calibrated)).

End WithSolver.

End Core.

(** * Concrete inputs used below *)

Module Samples.

Import InputAdapters.

(** The test [test_buffer_wrap_around]: capacity 3, items b'1' .. b'4'. *)
Definition wrap_around_buffer : CircularBuffer :=
  snd (append_all [["1"%byte]; ["2"%byte]; ["3"%byte]; ["4"%byte]]
         (CircularBuffer_init 3 5)).

Definition six_bytes : bytes := [x01; x02; x03; x04; x05; x06].
Definition seven_bytes : bytes := [x01; x02; x03; x04; x05; x06; x07].
Definition eight_bytes : bytes := [x01; x02; x03; x04; x05; x06; x07; x08].

(** Three records and one three-byte fragment, separated by the delimiter:
    id 1 at 5000 mm, a fragment, id 2 at 2500 mm, id 3 at 1000 mm. *)
Definition frame1 : bytes := [x01; x88; x13; x00; x00].
Definition fragment : bytes := [x09; x09; x09].
Definition frame2 : bytes := [x02; xc4; x09; x00; x00].
Definition frame3 : bytes := [x03; xe8; x03; x00; x00].

Definition noisy_chunk : bytes :=
  frame1 ++ delimiter ++ fragment ++ delimiter ++ frame2 ++ delimiter ++ frame3.

Definition noisy_state : loop_state :=
  {| self_buffer := snd (append (Some noisy_chunk) SerialInputAdapter_buffer);
     ranges := [] |}.

(** The anchors of the test fixtures. *)
Definition standard_anchors : dict Core.position :=
  [(1%Z, (0, 0, 0)%R); (2%Z, (3, 0, 0)%R); (3%Z, (0, 3, 0)%R)].

(** [standard_engine] of conftest.py. *)
Definition standard_engine : Core.LocalizationEngine :=
  {| Core.anchor_positions := standard_anchors;
     Core.calibration_type := "none";
     Core.calibration_params := [];
     Core.z_sign := 0;
     Core.min_range := 0;
     Core.max_range := 100 |}.

(** [test_multilateration_insufficient_anchors]: two anchors, two samples. *)
Definition two_anchors : dict Core.position :=
  [(1%Z, (0, 0, 0)%R); (2%Z, (3, 0, 0)%R)].
Definition two_samples : dict (option R) :=
  [(1%Z, Some 1%R); (2%Z, Some 2%R)].

(** An engine configured as linear with a single parameter. *)
Definition short_linear_engine : Core.LocalizationEngine :=
  {| Core.anchor_positions := standard_anchors;
     Core.calibration_type := "linear";
     Core.calibration_params := [1%R];
     Core.z_sign := 0;
     Core.min_range := 0;
     Core.max_range := 100 |}.

(** A cycle of three in-range samples. *)
Definition unit_cycle : dict (option R) :=
  [(1%Z, Some 1%R); (2%Z, Some 1%R); (3%Z, Some 1%R)].

(** A cycle of three samples of exactly 0.0. *)
Definition zero_cycle : dict (option R) :=
  [(1%Z, Some 0%R); (2%Z, Some 0%R); (3%Z, Some 0%R)].

(** A cycle with three entries of which only two are within [0, 100]. *)
Definition out_of_range_cycle : dict (option R) :=
  [(1%Z, Some 1%R); (2%Z, Some 2%R); (3%Z, Some 150%R)].

(** An engine whose calibration type is none of the documented ones. *)
Definition bogus_engine : Core.LocalizationEngine :=
  {| Core.anchor_positions := standard_anchors;
     Core.calibration_type := "bogus";
     Core.calibration_params := [1%R; 2%R; 3%R];
     Core.z_sign := 0;
     Core.min_range := 0;
     Core.max_range := 100 |}.

(** Raw readings of which the third is out of range. *)
Definition out_of_range_readings : dict R :=
  [(1%Z, 1%R); (2%Z, 2%R); (3%Z, 150%R)].

(** [test_multilateration_no_common_anchors]: ids 4, 5, 6. *)
Definition disjoint_cycle : dict (option R) :=
  [(4%Z, Some 1%R); (5%Z, Some 2%R); (6%Z, Some 3%R)].

(** A behaviour of the external solve: it raises a [ValueError]. *)
Definition lx_raises_value_error (_ : list (Z * Core.position)) (_ : list (Z * R))
  : result Core.position :=
  inl (ValueError "solver did not converge").

(** A behaviour of the external solve: it raises an exception that is not a
    [ValueError]. *)
Definition lx_raises_other (_ : list (Z * Core.position)) (_ : list (Z * R))
  : result Core.position :=
  inl (ExternalError "ZeroDivisionError" "float division by zero").

(** A behaviour of the external solve: it reports the origin. *)
Definition lx_origin (_ : list (Z * Core.position)) (_ : list (Z * R))
  : result Core.position :=
  inr (0, 0, 0)%R.

End Samples.

(** * Further observations on the framer *)

Module Framing.

Import InputAdapters.

(** The spans of a chunk that pass the two guards of [append]: not empty and
    not longer than [element_size]. *)
Definition is_storable (limit : nat) (span : bytes) : bool :=
  negb (Nat.eqb (length span) 0) && negb (Nat.ltb limit (length span)).

Definition storable (self : CircularBuffer) (chunk : bytes) : list bytes :=
  filter (is_storable (element_size self)) (split chunk).

(** What the loop of [append] relies on: a positive capacity and both
    indices within it (the counter may run ahead until it is clamped). *)
Definition indices_in_range (self : CircularBuffer) : Prop :=
  (0 < length (buffer self) /\
   head self < length (buffer self) /\
   tail self < length (buffer self))%nat.

(** The writer is exactly [size] slots ahead of the reader. *)
Definition in_sync (self : CircularBuffer) : Prop :=
  head self = (tail self + size self) mod length (buffer self).

(** [sep.join(spans)] *)
Fixpoint join (sep : bytes) (spans : list bytes) : bytes :=
  match spans with
  | [] => []
  | [s] => s
  | s :: rest => s ++ sep ++ join sep rest
  end.

(** The distance in metres that the read loop stores for a decoded frame. *)
Definition raw_val (message : Message) : R := (IZR (data message) / 1000)%R.

(** The assignments [ranges[id] = raw_val] that draining [frames] makes;
    a span that does not decode assigns nothing. *)
Definition absorb (frames : list bytes) (ranges : dict R) : dict R :=
  fold_left
    (fun r f =>
       match Message_init f with
       | inr message => dict_set r (id message) (raw_val message)
       | inl _ => r
       end)
    frames ranges.

End Framing.

(** * main.py *)

Module Main.

Import Core.

(** The two attributes of [UWBLocalizerApp] that [_on_distance_update]
    writes. *)
Record UWBLocalizerApp : Type := mkUWBLocalizerApp {
  last_position : option position;
  position_history : list (R * position)
}.

(** The end of [_on_distance_update], from [if position:] on, with
    [timestamp] the value of [time.time()]: a fix is remembered and appended
    to the history, whose oldest entry is dropped once there are more than
    1000.  The call of the output adapter, taken to return, and the printed
    warning are left out. *)
Definition remember_position (self : UWBLocalizerApp) (timestamp : R)
    (position : option position) : UWBLocalizerApp :=
  match position with
  | Some p =>
      let history := position_history self ++ [(timestamp, p)] in
      {| last_position := Some p;
         position_history :=
           if (1000 <? length history)%nat then tl history else history |}
  | None => self
  end.

(** The fixes among a run of calls: the calls whose [position] is not
    [None], with their timestamps. *)
Definition fixes_of (events : list (R * option position)) : list (R * position) :=
  flat_map (fun e => match snd e with Some p => [(fst e, p)] | None => [] end) events.

(** A run of calls of [_on_distance_update], seen from the two attributes. *)
Definition replay (self : UWBLocalizerApp) (events : list (R * option position))
  : UWBLocalizerApp :=
  fold_left (fun app e => remember_position app (fst e) (snd e)) events self.

(** A value found under a key of the TOML table [anchor_positions]: a list
    (its elements taken to be numbers) or anything else. *)
Inductive toml_value : Type :=
| TomlList (items : list R)
| TomlOther.

Section Config.

(** The builtin [int] applied to a table key. *)
Variable py_int : string -> result Z.

(** The loop of [_parse_anchor_positions] over [anchors.items()]. *)
Fixpoint parse_anchors (anchors : list (string * toml_value))
    (anchor_positions : dict position) : result (dict position) :=
  match anchors with
  | [] => inr anchor_positions
  | (anchor_id_str, position) :: rest =>
      rbind (py_int anchor_id_str)
        (fun anchor_id =>
           match position with
           | TomlList [x; y; z] =>
               parse_anchors rest (dict_set anchor_positions anchor_id (x, y, z))
           | _ => inl (ValueError "Invalid anchor position for anchor")
           end)
  end.

(** [UWBLocalizerApp._parse_anchor_positions] *)
Definition _parse_anchor_positions (anchors : list (string * toml_value))
  : result (dict position) :=
  parse_anchors anchors [].

(** [UWBLocalizerApp._create_localization_engine], with the values read
    from the [localization] table as arguments. *)
Definition _create_localization_engine (anchors : list (string * toml_value))
    (calibration_type : string) (calibration_params : list R)
    (z_sign : Z) (min_range max_range : R) : result LocalizationEngine :=
  rbind (_parse_anchor_positions anchors)
    (fun anchor_positions =>
       LocalizationEngine_init anchor_positions calibration_type
         (Some calibration_params) z_sign min_range max_range).

End Config.

End Main.

(** * output_adapters.py: MultiOutputAdapter *)

Module OutputAdapters.

Import Core.

Section Sinks.

(** Whatever the adapters act on: sockets, files, the console. *)
Variable W : Type.

(** The interface [OutputAdapter]. *)
Record OutputAdapter : Type := mkOutputAdapter {
  send_position : position -> option R -> M W unit;
  close : M W unit
}.

(** [try: body except Exception as e: print(...)]; the printed line is not
    modelled. *)
Definition swallow (body : M W unit) : M W unit :=
  fun w =>
    match body w with
    | (inl _, w') => (inr tt, w')
    | (inr _, w') => (inr tt, w')
    end.

(** [MultiOutputAdapter.send_position] *)
Definition MultiOutputAdapter_send_position (adapters : list OutputAdapter)
    (position : position) (timestamp : option R) : M W unit :=
  for_each adapters (fun adapter => swallow (send_position adapter position timestamp)).

(** [MultiOutputAdapter.close] *)
Definition MultiOutputAdapter_close (adapters : list OutputAdapter) : M W unit :=
  for_each adapters (fun adapter => swallow (close adapter)).

(** [MultiOutputAdapter(adapters)] as an adapter. *)
Definition MultiOutputAdapter (adapters : list OutputAdapter) : OutputAdapter :=
  {| send_position := MultiOutputAdapter_send_position adapters;
     close := MultiOutputAdapter_close adapters |}.

End Sinks.

End OutputAdapters.

(** * More concrete inputs *)

Module MoreSamples.

Import InputAdapters Samples.

(** A buffer of capacity 3 that has just been filled. *)
Definition full_buffer : CircularBuffer :=
  snd (append_all [["1"%byte]; ["2"%byte]; ["3"%byte]] (CircularBuffer_init 3 5)).

(** An oversized span between two delimiters. *)
Definition skipped_chunk : bytes := delimiter ++ eight_bytes ++ delimiter.

(** A second record of anchor 1, at 1000 mm. *)
Definition frame1b : bytes := [x01; xe8; x03; x00; x00].

Definition clean_chunk : bytes :=
  frame1 ++ delimiter ++ frame2 ++ delimiter ++ frame1b.

Definition clean_state : loop_state :=
  {| self_buffer := snd (append (Some clean_chunk) SerialInputAdapter_buffer);
     ranges := [] |}.






(** An engine whose bounds are the wrong way round. *)
Definition inverted_engine : Core.LocalizationEngine :=
  {| Core.anchor_positions := standard_anchors;
     Core.calibration_type := "none";
     Core.calibration_params := [];
     Core.z_sign := 0;
     Core.min_range := 10;
     Core.max_range := 5 |}.

(** [int] on the few keys used below; "01" and "1" are the same number. *)
Definition sample_int (s : string) : result Z :=
  if String.eqb s "1" then inr 1%Z
  else if String.eqb s "01" then inr 1%Z
  else if String.eqb s "2" then inr 2%Z
  else if String.eqb s "3" then inr 3%Z
  else inl (ValueError "invalid literal for int() with base 10").

Definition good_table : list (string * Main.toml_value) :=
  [("1"%string, Main.TomlList [0; 0; 0]%R);
   ("2"%string, Main.TomlList [3; 0; 0]%R);
   ("3"%string, Main.TomlList [0; 3; 0]%R)].

Definition colliding_table : list (string * Main.toml_value) :=
  [("1"%string, Main.TomlList [0; 0; 0]%R);
   ("01"%string, Main.TomlList [3; 0; 0]%R);
   ("2"%string, Main.TomlList [0; 3; 0]%R)].

Definition fresh_app : Main.UWBLocalizerApp :=
  {| Main.last_position := None; Main.position_history := [] |}.

Definition three_calls : list (R * option Core.position) :=
  [(1%R, Some (1, 1, 0)%R); (2%R, None); (3%R, Some (1, 2, 0)%R)].

End MoreSamples.

(** * Properties *)

(** ** Auxiliary facts *)

Lemma Rleb_true x y : Rleb x y = true <-> (x <= y)%R.
Proof. unfold Rleb; destruct (Rle_dec x y); split; intros; auto; discriminate. Qed.

Lemma Rleb_false x y : Rleb x y = false <-> (y < x)%R.
Proof.
  unfold Rleb; destruct (Rle_dec x y); split; intros; auto; try discriminate; lra.
Qed.

Lemma Rltb_true x y : Rltb x y = true <-> (x < y)%R.
Proof. unfold Rltb; destruct (Rlt_dec x y); split; intros; auto; discriminate. Qed.

Lemma Rltb_false x y : Rltb x y = false <-> (y <= x)%R.
Proof.
  unfold Rltb; destruct (Rlt_dec x y); split; intros; auto; try discriminate; lra.
Qed.

(** Decide every comparison of concrete reals that occurs in the goal. *)
Ltac decide_reals :=
  repeat match goal with
    | |- context [Rleb ?a ?b] =>
        first [ rewrite (proj2 (Rleb_true a b)) by lra
              | rewrite (proj2 (Rleb_false a b)) by lra ]
    | |- context [Rltb ?a ?b] =>
        first [ rewrite (proj2 (Rltb_true a b)) by lra
              | rewrite (proj2 (Rltb_false a b)) by lra ]
    end.

(** ** Dictionaries *)

Section DictionaryAccess.

Context {V : Type}.

Lemma dict_set_length (d : dict V) (k : Z) (v : V) :
  (length (dict_set d k v) <= S (length d))%nat.
Proof.
  induction d as [|[k' v'] d IH]; cbn; [lia|].
  destruct (Z.eqb k k'); cbn; lia.
Qed.

Lemma dict_set_fresh (d : dict V) (k : Z) (v : V) :
  ~ In k (keys d) -> dict_set d k v = d ++ [(k, v)].
Proof.
  induction d as [|[k' v'] d IH]; cbn; intros H; [reflexivity|].
  destruct (Z.eqb_spec k k') as [->|Hne]; [tauto|].
  rewrite IH by tauto. reflexivity.
Qed.

Lemma dict_get_In (d : dict V) (k : Z) (v : V) :
  NoDup (keys d) -> In (k, v) d -> dict_get d k = Some v.
Proof.
  induction d as [|[k' v'] d IH]; cbn; intros Hnd Hin; [contradiction|].
  inversion Hnd as [|? ? Hnot Hnd']; subst.
  destruct Hin as [E|Hin].
  - injection E as -> ->. rewrite Z.eqb_refl. reflexivity.
  - destruct (Z.eqb_spec k k') as [->|Hne]; [|auto].
    exfalso. apply Hnot. change k' with (fst (k', v)). apply in_map. assumption.
Qed.

Lemma dict_get_Some_In (d : dict V) (k : Z) (v : V) :
  dict_get d k = Some v -> In (k, v) d.
Proof.
  induction d as [|[k' v'] d IH]; cbn; intros H; [discriminate|].
  destruct (Z.eqb_spec k k') as [->|Hne]; [injection H as ->; auto|auto].
Qed.

Lemma dict_get_key (d : dict V) (k : Z) :
  In k (keys d) -> exists v, dict_get d k = Some v.
Proof.
  induction d as [|[k' v'] d IH]; cbn; intros H; [contradiction|].
  destruct (Z.eqb_spec k k') as [->|Hne]; [eauto|].
  destruct H as [H|H]; [congruence|auto].
Qed.

End DictionaryAccess.

Section DictionaryLoops.

Context {V W : Type}.

Lemma dict_collect_fold_length (f : Z -> V -> option W) (d : dict V) :
  forall out : dict W,
    (length
       (fold_left
          (fun out kv =>
             match f (fst kv) (snd kv) with
             | Some w => dict_set out (fst kv) w
             | None => out
             end) d out) <= length out + length d)%nat.
Proof.
  induction d as [|kv d IH]; intros out; cbn [fold_left length]; [lia|].
  destruct (f (fst kv) (snd kv)) as [w|].
  - specialize (IH (dict_set out (fst kv) w)).
    pose proof (dict_set_length out (fst kv) w). lia.
  - specialize (IH out). lia.
Qed.

(** A loop of assignments never builds more entries than it visits. *)
Lemma dict_collect_length (f : Z -> V -> option W) (d : dict V) :
  (length (dict_collect f d) <= length d)%nat.
Proof. unfold dict_collect. pose proof (dict_collect_fold_length f d []). cbn in *. lia. Qed.

Lemma dict_comprehension_keys (f : Z -> V -> option W) (d : dict V) (k : Z) :
  In k (keys (dict_comprehension f d)) -> In k (keys d).
Proof.
  induction d as [|[k' v'] d IH]; cbn; [auto|].
  unfold keys in *. rewrite map_app, in_app_iff. intros [H|H]; [|auto].
  destruct (f k' v'); cbn in H; [|contradiction]. destruct H; [auto|contradiction].
Qed.

Lemma dict_collect_fold_NoDup (f : Z -> V -> option W) (d : dict V) :
  forall out : dict W,
    NoDup (keys d) ->
    (forall k, In k (keys out) -> ~ In k (keys d)) ->
    fold_left
      (fun out kv =>
         match f (fst kv) (snd kv) with
         | Some w => dict_set out (fst kv) w
         | None => out
         end) d out
    = out ++ dict_comprehension f d.
Proof.
  induction d as [|[k v] d IH]; intros out Hnd Hdis; cbn [fold_left].
  - cbn. rewrite app_nil_r. reflexivity.
  - inversion Hnd as [|? ? Hnot Hnd']; subst.
    cbn [dict_comprehension flat_map fst snd].
    destruct (f k v) as [w|].
    + rewrite IH; [|assumption|].
      * rewrite dict_set_fresh; [rewrite <- app_assoc; reflexivity|].
        intros Hin. apply (Hdis k Hin). left. reflexivity.
      * intros k0 Hin. rewrite dict_set_fresh in Hin.
        -- unfold keys in Hin. rewrite map_app, in_app_iff in Hin. cbn in Hin.
           destruct Hin as [Hin|[<-|[]]]; [|assumption].
           intros Hd. apply (Hdis k0 Hin). right. assumption.
        -- intros Hin'. apply (Hdis k Hin'). left. reflexivity.
    + rewrite IH; [reflexivity|assumption|].
      intros k0 Hin Hd. apply (Hdis k0 Hin). right. assumption.
Qed.

(** On a dictionary (distinct keys) the loop and the comprehension agree. *)
Lemma dict_collect_comprehension (f : Z -> V -> option W) (d : dict V) :
  NoDup (keys d) -> dict_collect f d = dict_comprehension f d.
Proof.
  intros H. unfold dict_collect. rewrite dict_collect_fold_NoDup; auto.
Qed.

Lemma dict_comprehension_In (f : Z -> V -> option W) (d : dict V) (k : Z) (w : W) :
  In (k, w) (dict_comprehension f d) <-> exists v, In (k, v) d /\ f k v = Some w.
Proof.
  unfold dict_comprehension. rewrite in_flat_map. split.
  - intros ([k' v] & Hin & H). cbn in H.
    destruct (f k' v) as [w'|] eqn:E; [|contradiction].
    destruct H as [H|[]]. injection H as -> ->. eauto.
  - intros (v & Hin & E). exists (k, v). split; [assumption|].
    cbn. rewrite E. left. reflexivity.
Qed.

Lemma dict_comprehension_NoDup (f : Z -> V -> option W) (d : dict V) :
  NoDup (keys d) -> NoDup (keys (dict_comprehension f d)).
Proof.
  induction d as [|[k v] d IH]; cbn; intros H; [constructor|].
  inversion H as [|? ? Hnot Hnd]; subst.
  destruct (f k v) as [w|]; cbn; [|auto].
  constructor; [|auto].
  intros Hin. apply Hnot. eapply dict_comprehension_keys. eassumption.
Qed.

End DictionaryLoops.

Lemma rmap_all_ok {A B} (f : A -> result B) (l : list A) :
  (forall a, In a l -> exists b, f a = inr b) ->
  exists bs, rmap f l = inr bs /\ Forall2 (fun a b => f a = inr b) l bs.
Proof.
  induction l as [|a l IH]; intros H.
  - exists []. split; [reflexivity|constructor].
  - destruct (H a) as (b & Hb); [left; reflexivity|].
    destruct IH as (bs & Hbs & HF); [intros; apply H; right; assumption|].
    exists (b :: bs). cbn. rewrite Hb. cbn. rewrite Hbs. cbn.
    split; [reflexivity|constructor; assumption].
Qed.

(** ** The ring buffer *)

Section RingBuffer.

Import InputAdapters.

Lemma pending_step (self : CircularBuffer) (n : nat) :
  (tail self < length (buffer self))%nat ->
  size self = S n ->
  pending self =
    nth (tail self) (buffer self) [] ::
    pending {| buffer := buffer self;
               head := head self;
               size := n;
               tail := (tail self + 1) mod length (buffer self);
               element_size := element_size self |}.
Proof.
  intros Ht Hs. unfold pending. rewrite Hs. cbn [size tail buffer].
  rewrite <- cons_seq. cbn [map]. f_equal.
  - rewrite Nat.add_0_r, Nat.mod_small by assumption. reflexivity.
  - rewrite <- seq_shift, map_map. apply map_ext. intros i.
    rewrite Nat.Div0.add_mod_idemp_l.
    replace (tail self + 1 + i)%nat with (tail self + S i)%nat by lia.
    reflexivity.
Qed.

(** On a buffer with something to read, [pop] hands out the first pending
    entry and leaves the remaining ones pending, slots untouched. *)
Lemma pop_pending (self : CircularBuffer) :
  well_formed self ->
  (0 < size self)%nat ->
  exists x self',
    pop self = (inr (Some x), self') /\
    pending self = x :: pending self' /\
    buffer self' = buffer self /\
    size self' = (size self - 1)%nat /\
    well_formed self'.
Proof.
  intros (HN & Hh & Ht & Hs) Hpos.
  destruct (size self) as [|n] eqn:En; [lia|].
  unfold pop. rewrite En. cbn [Nat.eqb].
  destruct (nth_error (buffer self) (tail self)) as [x|] eqn:Ex.
  - eexists _, _. split; [reflexivity|].
    split; [|split; [reflexivity|split; [reflexivity|]]].
    + rewrite (pending_step self Ht En).
      rewrite (nth_error_nth _ _ _ Ex).
      replace (S n - 1)%nat with n by lia. reflexivity.
    + unfold well_formed; cbn [buffer head tail size].
      repeat split; try assumption; try lia.
      apply Nat.mod_upper_bound; lia.
  - apply nth_error_None in Ex. lia.
Qed.

(** Reading everything that is pending returns it in order. *)
Lemma pop_n_pending (n : nat) :
  forall self,
    well_formed self ->
    size self = n ->
    exists self',
      pop_n n self = (inr (map Some (pending self)), self') /\
      buffer self' = buffer self /\ size self' = 0%nat.
Proof.
  induction n as [|n IH]; intros self Hwf Hn.
  - exists self. unfold pending. rewrite Hn. cbn. auto.
  - destruct (pop_pending Hwf) as (x & s1 & Hpop & Hpend & Hbuf & Hsz & Hwf1); [lia|].
    destruct (IH s1 Hwf1) as (s2 & Hrest & Hbuf2 & Hsz2); [lia|].
    exists s2. cbn [pop_n]. unfold bind at 1. rewrite Hpop.
    unfold bind at 1. rewrite Hrest. unfold ret.
    rewrite Hpend. cbn [map]. split; [reflexivity|]. split; congruence.
Qed.

Lemma pending_length (self : CircularBuffer) :
  length (pending self) = size self.
Proof. unfold pending. rewrite length_map, length_seq. reflexivity. Qed.

Lemma Message_init_malformed (d : bytes) :
  length d <> 5%nat ->
  Message_init d = inl (struct_error "unpack requires a buffer of 5 bytes").
Proof.
  destruct d as [|? [|? [|? [|? [|? [|? ?]]]]]]; cbn; intros H;
    try reflexivity; contradiction.
Qed.

Lemma Message_init_frame (d : bytes) :
  length d = 5%nat -> exists m, Message_init d = inr m.
Proof.
  destruct d as [|? [|? [|? [|? [|? [|? ?]]]]]]; cbn; intros H;
    try discriminate; eexists; reflexivity.
Qed.

(** The drain loop decodes the well-sized frames in front, stops at the
    first span of another length with [struct.error], and leaves behind a
    buffer whose pending entries are exactly those that followed it. *)
Lemma drain_until_malformed (good : list bytes) :
  forall (st : loop_state) (fuel : nat) (bad : bytes) (rest : list bytes),
    well_formed (self_buffer st) ->
    pending (self_buffer st) = good ++ bad :: rest ->
    Forall (fun s => length s = 5%nat) good ->
    length bad <> 5%nat ->
    (length good < fuel)%nat ->
    exists st',
      drain fuel st =
        Some (inl (struct_error "unpack requires a buffer of 5 bytes"), st') /\
      pending (self_buffer st') = rest /\
      buffer (self_buffer st') = buffer (self_buffer st) /\
      well_formed (self_buffer st').
Proof.
  induction good as [|g good IH]; intros st fuel bad rest Hwf Hpend Hgood Hbad Hfuel.
  - destruct fuel as [|fuel]; [cbn in Hfuel; lia|].
    assert (Hsz : (0 < size (self_buffer st))%nat).
    { rewrite <- pending_length, Hpend. cbn. lia. }
    destruct (pop_pending Hwf Hsz) as (x & b & Hpop & Hp & Hbuf & _ & Hwf').
    rewrite Hpend in Hp. cbn in Hp. injection Hp as <- Hrest.
    cbn [drain]. rewrite (proj2 (Nat.eqb_neq _ _)) by lia.
    rewrite Hpop, (Message_init_malformed _ Hbad).
    eexists. split; [reflexivity|]. cbn [self_buffer]. auto.
  - destruct fuel as [|fuel]; [cbn in Hfuel; lia|].
    assert (Hsz : (0 < size (self_buffer st))%nat).
    { rewrite <- pending_length, Hpend. cbn. lia. }
    destruct (pop_pending Hwf Hsz) as (x & b & Hpop & Hp & Hbuf & _ & Hwf').
    rewrite Hpend in Hp. cbn in Hp. injection Hp as <- Hrest.
    inversion Hgood as [|? ? Hg Hgood']; subst.
    destruct (Message_init_frame _ Hg) as (m & Hm).
    cbn [drain]. rewrite (proj2 (Nat.eqb_neq _ _)) by lia.
    rewrite Hpop, Hm.
    destruct (IH {| self_buffer := b;
                    ranges := dict_set (ranges st) (id m) (IZR (data m) / 1000)%R |}
                 fuel bad rest) as (st' & Hd & Hp' & Hb' & Hw');
      cbn [self_buffer]; auto; [cbn in Hfuel; lia|].
    exists st'. cbn [self_buffer] in Hb'. repeat split; auto; try apply Hw'. congruence.
Qed.

Lemma split_from_no_delimiter (s : bytes) :
  forall cur,
    contains_delimiter s = false ->
    split_from 0 cur s = [rev cur ++ s].
Proof.
  induction s as [|c s IH]; intros cur H.
  - cbn. rewrite app_nil_r. reflexivity.
  - cbn [contains_delimiter] in H. apply orb_false_iff in H as [H1 H2].
    cbn [split_from]. rewrite H1, (IH (c :: cur) H2).
    cbn [rev]. rewrite <- app_assoc. reflexivity.
Qed.

Lemma split_no_delimiter (chunk : bytes) :
  contains_delimiter chunk = false -> split chunk = [chunk].
Proof. intros H. unfold split. rewrite split_from_no_delimiter by assumption. reflexivity. Qed.

Lemma list_set_nth_error {A} (l : list A) :
  forall j x i y,
    nth_error (list_set l j x) i = Some y ->
    nth_error l i = Some y \/ y = x.
Proof.
  induction l as [|a l IH]; intros j x i y H.
  - destruct j; cbn in H; auto.
  - destruct j as [|j], i as [|i]; cbn in H |- *; auto.
    + injection H as <-. auto.
    + eapply IH; eassumption.
Qed.

Lemma append_item_slots (item : bytes) (self : CircularBuffer) :
  element_size (snd (append_item item self)) = element_size self /\
  forall i span,
    nth_error (buffer (snd (append_item item self))) i = Some span ->
    nth_error (buffer self) i = Some span \/
    (span = item /\ 0 < length item <= element_size self)%nat.
Proof.
  unfold append_item.
  destruct (Nat.eqb_spec (length item) 0) as [E0|E0]; [cbn; auto|].
  destruct (Nat.ltb_spec (element_size self) (length item)) as [E1|E1]; [cbn; auto|].
  destruct (Nat.ltb_spec (head self) (length (buffer self))) as [E2|E2]; [|cbn; auto].
  cbn [snd buffer element_size]. split; [reflexivity|].
  intros i span H. apply list_set_nth_error in H as [H| ->]; [auto|].
  right. split; [reflexivity|lia].
Qed.

Lemma for_each_append_item_slots (l : list bytes) :
  forall self,
    element_size (snd (for_each l append_item self)) = element_size self /\
    forall i span,
      nth_error (buffer (snd (for_each l append_item self))) i = Some span ->
      nth_error (buffer self) i = Some span \/
      (In span l /\ 0 < length span <= element_size self)%nat.
Proof.
  induction l as [|item l IH]; intros self.
  - cbn. auto.
  - cbn [for_each]. unfold bind.
    destruct (append_item_slots item self) as [He Hs].
    destruct (append_item item self) as [[e|[]] s1] eqn:E; cbn [snd] in *.
    + split; [assumption|]. intros i span H.
      destruct (Hs i span H) as [?|[-> ?]]; [auto|]. right. split; [left; reflexivity|assumption].
    + destruct (IH s1) as [He' Hs']. split; [congruence|].
      intros i span H. destruct (Hs' i span H) as [H1|[H1 H2]].
      * destruct (Hs i span H1) as [?|[-> ?]]; [auto|].
        right. split; [left; reflexivity|assumption].
      * right. split; [right; assumption|]. rewrite <- He. assumption.
Qed.

Lemma clamp_size_buffer (self : CircularBuffer) :
  fst (clamp_size self) = inr tt /\
  buffer (snd (clamp_size self)) = buffer self.
Proof. unfold clamp_size. destruct (Nat.ltb _ _); cbn; auto. Qed.

Lemma clamp_size_id (self : CircularBuffer) :
  (size self <= length (buffer self))%nat -> clamp_size self = (inr tt, self).
Proof.
  intros H. unfold clamp_size.
  destruct (Nat.ltb_spec (length (buffer self)) (size self)); [lia|reflexivity].
Qed.

Lemma pop_size (self : CircularBuffer) :
  match pop self with
  | (inl _, s) => s = self
  | (inr None, s) => s = self /\ size self = 0%nat
  | (inr (Some _), s) => size s = (size self - 1)%nat /\ (0 < size self)%nat
  end.
Proof.
  unfold pop. destruct (Nat.eqb_spec (size self) 0) as [E|E]; [auto|].
  destruct (nth_error (buffer self) (tail self)); [cbn; lia|reflexivity].
Qed.

(** The [while self.buffer.size > 0] loop ends: [size + 1] units of fuel
    always suffice. *)
Lemma drain_terminates (fuel : nat) :
  forall st : loop_state,
    (size (self_buffer st) < fuel)%nat ->
    exists r, drain fuel st = Some r.
Proof.
  induction fuel as [|fuel IH]; intros st H; [lia|].
  cbn [drain]. destruct (Nat.eqb_spec (size (self_buffer st)) 0) as [E|E]; [eauto|].
  pose proof (pop_size (self_buffer st)) as Hpop.
  destruct (pop (self_buffer st)) as [[e|[msg|]] b].
  - eauto.
  - destruct (Message_init msg); [eauto|]. apply IH. cbn [self_buffer]. lia.
  - lia.
Qed.

(** One pass of the read loop always completes. *)
Lemma read_loop_body_terminates (W : Type) (callback : option (dict R -> M W unit))
    (st : loop_state) (response : bytes) (w : W) :
  exists outcome, _read_loop_body callback st response w = Some outcome.
Proof.
  unfold _read_loop_body.
  destruct (append (Some response) (self_buffer st)) as [[e|[]] b]; [eauto|].
  destruct (drain_terminates (fuel := S (size b))
              {| self_buffer := b; ranges := ranges st |}) as ([[e|[]] st'] & ->);
    [cbn; lia|eauto|].
  destruct (ranges st'); [eauto|]. destruct callback as [cb|]; [|eauto].
  destruct (cb _ w) as [[e|[]] w']; eauto.
Qed.

(** [append] writes at [head] and never moves [tail], so after an overwrite
    the reader still starts from the slot it was about to read. *)
Lemma append_item_keeps_tail (item : bytes) (self : CircularBuffer) :
  tail (snd (append_item item self)) = tail self.
Proof.
  unfold append_item.
  destruct (Nat.eqb _ _); [reflexivity|].
  destruct (Nat.ltb _ _); [reflexivity|].
  destruct (Nat.ltb _ _); reflexivity.
Qed.

Lemma append_keeps_tail (item : option bytes) (self : CircularBuffer) :
  tail (snd (append item self)) = tail self.
Proof.
  destruct item as [chunk|]; [|reflexivity].
  cbn [append]. unfold bind.
  assert (H : forall l s, tail (snd (for_each l append_item s)) = tail s).
  { induction l as [|x l IH]; intros s; [reflexivity|].
    cbn [for_each]. unfold bind.
    pose proof (append_item_keeps_tail x s) as Hx.
    destruct (append_item x s) as [[e|[]] s1]; cbn [snd] in *; [assumption|].
    rewrite IH. assumption. }
  specialize (H (split chunk) self).
  destruct (for_each (split chunk) append_item self) as [[e|[]] s1];
    cbn [snd] in *; [assumption|].
  unfold clamp_size. destruct (Nat.ltb _ _); cbn; assumption.
Qed.

Lemma list_set_same {A} (l : list A) :
  forall i x, (i < length l)%nat -> nth_error (list_set l i x) i = Some x.
Proof.
  induction l as [|a l IH]; intros i x H; cbn in H; [lia|].
  destruct i as [|i]; cbn; [reflexivity|]. apply IH. lia.
Qed.

Lemma list_set_length {A} (l : list A) :
  forall i x, length (list_set l i x) = length l.
Proof.
  induction l as [|a l IH]; intros i x; [destruct i; reflexivity|].
  destruct i as [|i]; cbn; [reflexivity|]. rewrite IH. reflexivity.
Qed.

(** X4.  The overwrite in general: on a full buffer whose [head] has come
    round to [tail], a storable chunk is written over the entry at [tail],
    the counter stays at the capacity, and the next [pop] returns that
    chunk. *)
Lemma overwrite_is_read_first (self : CircularBuffer) (chunk : bytes) :
  well_formed self ->
  size self = length (buffer self) ->
  head self = tail self ->
  contains_delimiter chunk = false ->
  (0 < length chunk <= element_size self)%nat ->
  exists self',
    append (Some chunk) self = (inr tt, self') /\
    size self' = length (buffer self') /\
    tail self' = tail self /\
    fst (pop self') = inr (Some chunk).
Proof.
  intros (HN & Hh & Ht & Hs) Hfull Hht Hd Hlen.
  cbn [append]. rewrite (split_no_delimiter _ Hd). cbn [for_each].
  unfold bind at 1. unfold bind at 1. unfold append_item, ret.
  destruct (Nat.eqb_spec (length chunk) 0) as [E0|E0]; [lia|].
  destruct (Nat.ltb_spec (element_size self) (length chunk)) as [E1|E1]; [lia|].
  destruct (Nat.ltb_spec (head self) (length (buffer self))) as [E2|E2]; [|lia].
  unfold clamp_size. cbn [buffer size].
  rewrite list_set_length.
  destruct (Nat.ltb_spec (length (buffer self)) (size self + 1)) as [E3|E3]; [|lia].
  eexists. split; [reflexivity|]. cbn [size buffer tail].
  rewrite list_set_length. split; [reflexivity|]. split; [reflexivity|].
  unfold pop. cbn [size buffer tail].
  destruct (Nat.eqb_spec (length (buffer self)) 0) as [E4|E4]; [lia|].
  rewrite Hht, list_set_same by assumption. reflexivity.
Qed.

End RingBuffer.

(** ** Claims about the stream framer *)

Section FramerClaims.

Import InputAdapters Samples.

(** C1 (the code departs from its own test [test_buffer_wrap_around]).
    With capacity 3, after appending b'1', b'2', b'3', b'4' the counter is 3,
    but [append] never moves [tail]: the three pops return b'4', b'2', b'3',
    the overwriting entry first, and not b'2', b'3', b'4'. *)
Theorem wrap_around_pops_overwriting_entry_first :
  size wrap_around_buffer = 3%nat /\
  tail wrap_around_buffer = 0%nat /\
  fst (pop_n 3 wrap_around_buffer) =
    inr [Some ["4"%byte]; Some ["2"%byte]; Some ["3"%byte]].
Proof. vm_compute. repeat split. Qed.

(** C5, as stated, fails: the buffer of the serial adapter is built with
    [element_size=7], so a chunk that is one 6-byte span, or one 7-byte span,
    is stored and becomes poppable. *)
Lemma serial_buffer_stores_six_and_seven_byte_spans :
  pending SerialInputAdapter_buffer = [] /\
  pending (snd (append (Some six_bytes) SerialInputAdapter_buffer)) = [six_bytes] /\
  fst (pop (snd (append (Some six_bytes) SerialInputAdapter_buffer)))
    = inr (Some six_bytes) /\
  pending (snd (append (Some seven_bytes) SerialInputAdapter_buffer)) = [seven_bytes] /\
  fst (pop (snd (append (Some seven_bytes) SerialInputAdapter_buffer)))
    = inr (Some seven_bytes).
Proof. vm_compute. repeat split. Qed.

(** C5, amended.  The bound is the [element_size] the buffer was built with
    (7 for the serial adapter): whatever [append] leaves in a slot is either
    what was there before or a non-empty span of the chunk of at most
    [element_size] bytes, and a chunk that is one span of more than
    [element_size] bytes leaves the buffer as it was. *)
Theorem append_discards_spans_beyond_element_size
    (self : CircularBuffer) (chunk : bytes) :
  (size self <= length (buffer self))%nat ->
  element_size SerialInputAdapter_buffer = 7%nat /\
  element_size (snd (append (Some chunk) self)) = element_size self /\
  (forall i span,
      nth_error (buffer (snd (append (Some chunk) self))) i = Some span ->
      nth_error (buffer self) i = Some span \/
      (In span (split chunk) /\ 0 < length span <= element_size self)%nat) /\
  (contains_delimiter chunk = false ->
   (element_size self < length chunk)%nat ->
   append (Some chunk) self = (inr tt, self) /\
   pending (snd (append (Some chunk) self)) = pending self).
Proof.
  intros Hsz. split; [reflexivity|].
  destruct (for_each_append_item_slots (split chunk) self) as [He Hs].
  assert (Hb : buffer (snd (append (Some chunk) self)) =
               buffer (snd (for_each (split chunk) append_item self)) /\
               element_size (snd (append (Some chunk) self)) =
               element_size (snd (for_each (split chunk) append_item self))).
  { cbn [append]. unfold bind.
    destruct (for_each (split chunk) append_item self) as [[e|[]] s1]; cbn [snd]; auto.
    unfold clamp_size. destruct (Nat.ltb _ _); cbn; auto. }
  destruct Hb as [Hb Hb']. split; [congruence|]. split.
  - intros i span H. rewrite Hb in H. auto.
  - intros Hd Hlen.
    assert (E : append (Some chunk) self = (inr tt, self)).
    { cbn [append]. rewrite (split_no_delimiter _ Hd). cbn [for_each].
      unfold bind, append_item, ret.
      destruct (Nat.eqb_spec (length chunk) 0) as [E0|E0]; [lia|].
      rewrite (proj2 (Nat.ltb_lt _ _) Hlen).
      apply clamp_size_id; assumption. }
    rewrite E. auto.
Qed.

Lemma append_discards_spans_beyond_element_size_witness :
  append (Some eight_bytes) SerialInputAdapter_buffer
    = (inr tt, SerialInputAdapter_buffer) /\
  pending (snd (append (Some eight_bytes) SerialInputAdapter_buffer))
    = pending SerialInputAdapter_buffer.
Proof.
  refine (proj2 (proj2 (proj2
    (@append_discards_spans_beyond_element_size
       SerialInputAdapter_buffer eight_bytes _))) _ _).
  - cbn. lia.
  - reflexivity.
  - cbn. lia.
Defined.

(** C8.  A span whose length is not 5 does not decode: [Message] raises
    [struct.error], which reaches the caller of the decode (the read loop's
    handler).  The buffer was already advanced past that span and is not
    touched by the failure: with well-sized frames [good] in front of the
    malformed span [bad] and [rest] behind it, the drain stops at [bad] with
    that error, the entries pending afterwards are exactly [rest], and the
    following pops return them unchanged and in order. *)
Theorem malformed_frame_keeps_later_items
    (st : loop_state) (good : list bytes) (bad : bytes) (rest : list bytes) :
  well_formed (self_buffer st) ->
  pending (self_buffer st) = good ++ bad :: rest ->
  Forall (fun s => length s = 5%nat) good ->
  length bad <> 5%nat ->
  Message_init bad = inl (struct_error "unpack requires a buffer of 5 bytes") /\
  exists st',
    drain (S (size (self_buffer st))) st =
      Some (inl (struct_error "unpack requires a buffer of 5 bytes"), st') /\
    buffer (self_buffer st') = buffer (self_buffer st) /\
    pending (self_buffer st') = rest /\
    fst (pop_n (length rest) (self_buffer st')) = inr (map Some rest).
Proof.
  intros Hwf Hpend Hgood Hbad.
  split; [apply Message_init_malformed; assumption|].
  destruct (@drain_until_malformed good st (S (size (self_buffer st))) bad rest)
    as (st' & Hd & Hp & Hb & Hw); auto.
  { rewrite <- pending_length, Hpend, length_app. cbn. lia. }
  exists st'. repeat split; auto.
  destruct (@pop_n_pending (length rest) (self_buffer st') Hw) as (s2 & Hpop & _).
  { rewrite <- pending_length, Hp. reflexivity. }
  rewrite Hpop, Hp. reflexivity.
Qed.

Lemma malformed_frame_keeps_later_items_witness :
  Message_init fragment = inl (struct_error "unpack requires a buffer of 5 bytes") /\
  exists st',
    drain (S (size (self_buffer noisy_state))) noisy_state =
      Some (inl (struct_error "unpack requires a buffer of 5 bytes"), st') /\
    buffer (self_buffer st') = buffer (self_buffer noisy_state) /\
    pending (self_buffer st') = [frame2; frame3] /\
    fst (pop_n 2 (self_buffer st')) = inr [Some frame2; Some frame3].
Proof.
  refine (@malformed_frame_keeps_later_items noisy_state [frame1] fragment
            [frame2; frame3] _ _ _ _).
  - unfold well_formed. vm_compute. repeat split; lia.
  - vm_compute. reflexivity.
  - repeat constructor.
  - cbn. discriminate.
Defined.

End FramerClaims.

(** ** Claims about the solver and the engine *)

Section CoreClaims.

Import Core Samples.

Local Open Scope R_scope.

Lemma clamp_is_Rmax (z2 : R) : (if Rltb z2 0 then 0 else z2) = Rmax 0 z2.
Proof.
  unfold Rltb, Rmax. destruct (Rlt_dec z2 0), (Rle_dec 0 z2); try reflexivity; lra.
Qed.

(** C2.  With [L2 > 0] and [L3 > 0] the closed form returns
    x = (L2^2 + d1^2 - d2^2) / (2 L2), y = (L3^2 + d1^2 - d3^2) / (2 L3) and
    z = sign * sqrt (max 0 (d1^2 - x^2 - y^2)), with sign +1 for the upper
    policy ([z_sign = +1]) and -1 for the lower one ([z_sign = -1]); when
    d1^2 - x^2 - y^2 is negative the result is still returned, with z = 0;
    with [L2 <= 0] or [L3 <= 0] the call raises the [ValueError]
    "L2 and L3 must be positive", the geometry failure of this path. *)
Theorem solve_position_closed_form (d1 d2 d3 eps L2 L3 : R) :
  let x := (L2 ^ 2 + d1 ^ 2 - d2 ^ 2) / (2 * L2) in
  let y := (L3 ^ 2 + d1 ^ 2 - d3 ^ 2) / (2 * L3) in
  let z2 := d1 ^ 2 - x ^ 2 - y ^ 2 in
  (0 < L2 -> 0 < L3 ->
   solve_position d1 d2 d3 1 eps L2 L3 = inr (x, y, 1 * sqrt (Rmax 0 z2)) /\
   solve_position d1 d2 d3 (-1) eps L2 L3 = inr (x, y, -1 * sqrt (Rmax 0 z2)) /\
   (z2 < 0 ->
    forall z_sign, solve_position d1 d2 d3 z_sign eps L2 L3 = inr (x, y, 0))) /\
  (L2 <= 0 \/ L3 <= 0 ->
   forall z_sign,
     solve_position d1 d2 d3 z_sign eps L2 L3
       = inl (ValueError "L2 and L3 must be positive")).
Proof.
  intros x y z2. split.
  - intros H2 H3.
    assert (E : forall z_sign,
               solve_position d1 d2 d3 z_sign eps L2 L3 =
                 inr (x, y, sqrt (Rmax 0 z2)
                            * (if (0 <=? z_sign)%Z then 1 else -1))).
    { intros z_sign. unfold solve_position.
      rewrite (proj2 (Rleb_false L2 0)), (proj2 (Rleb_false L3 0)) by lra.
      cbn [orb]. rewrite clamp_is_Rmax.
      replace (L2 * L2 + d1 * d1 - d2 * d2) with (L2 ^ 2 + d1 ^ 2 - d2 ^ 2) by ring.
      replace (L3 * L3 + d1 * d1 - d3 * d3) with (L3 ^ 2 + d1 ^ 2 - d3 ^ 2) by ring.
      fold x y.
      replace (d1 * d1 - x * x - y * y) with z2 by (unfold z2; ring).
      reflexivity. }
    split; [|split].
    + rewrite E. cbn [Z.leb Z.compare]. do 2 f_equal. ring.
    + rewrite E. cbn [Z.leb Z.compare]. do 2 f_equal. ring.
    + intros Hneg z_sign. rewrite E.
      rewrite Rmax_left by lra. rewrite sqrt_0. do 2 f_equal. ring.
  - intros Hdeg z_sign. unfold solve_position.
    destruct Hdeg as [H|H].
    + rewrite (proj2 (Rleb_true L2 0)) by assumption. reflexivity.
    + rewrite (proj2 (Rleb_true L3 0)) by assumption.
      rewrite orb_true_r. reflexivity.
Qed.

Lemma solve_position_closed_form_witness :
  (solve_position 1 2 2 1 0 3 3
     = inr ((3 ^ 2 + 1 ^ 2 - 2 ^ 2) / (2 * 3), (3 ^ 2 + 1 ^ 2 - 2 ^ 2) / (2 * 3),
            1 * sqrt (Rmax 0 (1 ^ 2 - ((3 ^ 2 + 1 ^ 2 - 2 ^ 2) / (2 * 3)) ^ 2
                                    - ((3 ^ 2 + 1 ^ 2 - 2 ^ 2) / (2 * 3)) ^ 2)))) /\
  (solve_position 1 2 2 0 0 0 3
     = inl (ValueError "L2 and L3 must be positive")).
Proof.
  split.
  - refine (proj1 (proj1 (solve_position_closed_form 1 2 2 0 3 3) _ _)); lra.
  - refine (proj2 (solve_position_closed_form 1 2 2 0 0 3) _ 0%Z). left. lra.
Defined.

(** C3 (the code departs from its own test
    [test_multilateration_insufficient_anchors]).  With two anchor positions
    and two samples both counts are short; the sample count is tested first,
    so the error is "Not enough data for trilateration" and not
    "Not enough anchor positions for trilateration". *)
Theorem short_data_is_reported_before_short_anchors :
  forall lx z_sign,
    multilateration lx two_samples two_anchors z_sign
      = inl (ValueError "Not enough data for trilateration").
Proof. intros lx z_sign. reflexivity. Qed.

(** The same for every input: a short sample count wins over everything
    else. *)
Lemma multilateration_checks_data_first lx raw_data anchors z_sign :
  (length (non_zero_data raw_data) < 3)%nat ->
  multilateration lx raw_data anchors z_sign
    = inl (ValueError "Not enough data for trilateration").
Proof.
  intros H. unfold multilateration.
  rewrite (proj2 (Nat.ltb_lt _ _) H). reflexivity.
Qed.

(** C4, as stated, fails: an engine whose type is 'linear' and whose
    parameter list has one element is constructed without complaint, and it
    is the later call of [calibrate] that raises. *)
Lemma mismatched_arity_passes_construction :
  LocalizationEngine_init standard_anchors "linear" (Some [1]) 0 0 100
    = inr short_linear_engine /\
  calibrate short_linear_engine 5
    = inl (ValueError "Linear calibration requires 2 parameters [k, b]").
Proof. split; reflexivity. Qed.

(** C4, amended.  Construction checks the number of anchors only: with at
    least three anchors it succeeds for every calibration type and parameter
    list and stores them as given.  The arity is checked by every call of
    [calibrate]: the call returns a value exactly when a 'linear' engine has
    2 parameters, a 'quadratic' one 3 and a 'cubic' one 4, and otherwise
    raises a [ValueError].  With a matching count the value returned is the
    polynomial in the raw distance, k*x + b, a*x^2 + b*x + c or
    a*x^3 + b*x^2 + c*x + d, with the parameters in the order of the list;
    for any other type it is the raw distance itself. *)
Theorem arity_is_checked_by_calibrate
    (anchors : dict position) (ct : string) (params : option (list R))
    (zs : Z) (mn mx : R) :
  (3 <= length anchors)%nat ->
  exists self,
    LocalizationEngine_init anchors ct params zs mn mx = inr self /\
    calibration_type self = ct /\
    calibration_params self = match params with Some l => l | None => [] end /\
    forall raw,
      ((exists v, calibrate self raw = inr v) <->
       ((ct = "linear"%string -> length (calibration_params self) = 2%nat) /\
        (ct = "quadratic"%string -> length (calibration_params self) = 3%nat) /\
        (ct = "cubic"%string -> length (calibration_params self) = 4%nat))) /\
      (forall e, calibrate self raw = inl e -> is_ValueError e = true) /\
      (forall k b,
          ct = "linear"%string -> calibration_params self = [k; b] ->
          calibrate self raw = inr (k * raw + b)) /\
      (forall a b c,
          ct = "quadratic"%string -> calibration_params self = [a; b; c] ->
          calibrate self raw = inr (a * raw ^ 2 + b * raw + c)) /\
      (forall a b c d,
          ct = "cubic"%string -> calibration_params self = [a; b; c; d] ->
          calibrate self raw
            = inr (a * raw ^ 3 + b * raw ^ 2 + c * raw + d)) /\
      (ct <> "linear"%string -> ct <> "quadratic"%string -> ct <> "cubic"%string ->
       calibrate self raw = inr raw).
Proof.
  intros Hlen. eexists. split.
  - unfold LocalizationEngine_init.
    rewrite (proj2 (Nat.ltb_ge _ _) Hlen). reflexivity.
  - cbn [calibration_type calibration_params].
    split; [reflexivity|]. split; [reflexivity|].
    intros raw. unfold calibrate. cbn [calibration_type calibration_params].
    set (p := match params with Some l => l | None => [] end).
    assert (Hvalues :
      (forall k b, p = [k; b] ->
         calibrated_linear (nth 0 p 0) (nth 1 p 0) raw = k * raw + b) /\
      (forall a b c, p = [a; b; c] ->
         calibrated_quadratic (nth 0 p 0) (nth 1 p 0) (nth 2 p 0) raw
           = a * raw ^ 2 + b * raw + c) /\
      (forall a b c d, p = [a; b; c; d] ->
         calibrated_cubic (nth 0 p 0) (nth 1 p 0) (nth 2 p 0) (nth 3 p 0) raw
           = a * raw ^ 3 + b * raw ^ 2 + c * raw + d)).
    { repeat split; intros; subst p;
        match goal with H : _ = _ |- _ => rewrite H end; cbn [nth];
        unfold calibrated_linear, calibrated_quadratic, calibrated_cubic; ring. }
    destruct Hvalues as (Hlin & Hquad & Hcub).
    destruct (String.eqb_spec ct "linear") as [->|H1].
    { destruct (Nat.eqb_spec (length p) 2) as [E|E]; cbn [negb];
        (split; [|split; [|split; [|split; [|split]]]]).
      - split; [intros _|eauto]. repeat split; intros; congruence.
      - intros e He. discriminate.
      - intros k b _ Hp. rewrite (Hlin k b Hp). reflexivity.
      - intros; discriminate.
      - intros; discriminate.
      - intros; congruence.
      - split; [intros [v Hv]; discriminate|]. intros (H & _ & _). tauto.
      - intros e He. injection He as <-. reflexivity.
      - intros k b _ Hp. rewrite Hp in E. cbn in E. congruence.
      - intros; discriminate.
      - intros; discriminate.
      - intros; congruence. }
    destruct (String.eqb_spec ct "quadratic") as [->|H2].
    { destruct (Nat.eqb_spec (length p) 3) as [E|E]; cbn [negb];
        (split; [|split; [|split; [|split; [|split]]]]).
      - split; [intros _|eauto]. repeat split; intros; congruence.
      - intros e He. discriminate.
      - intros; discriminate.
      - intros a b c _ Hp. rewrite (Hquad a b c Hp). reflexivity.
      - intros; discriminate.
      - intros; congruence.
      - split; [intros [v Hv]; discriminate|]. intros (_ & H & _). tauto.
      - intros e He. injection He as <-. reflexivity.
      - intros; discriminate.
      - intros a b c _ Hp. rewrite Hp in E. cbn in E. congruence.
      - intros; discriminate.
      - intros; congruence. }
    destruct (String.eqb_spec ct "cubic") as [->|H3].
    { destruct (Nat.eqb_spec (length p) 4) as [E|E]; cbn [negb];
        (split; [|split; [|split; [|split; [|split]]]]).
      - split; [intros _|eauto]. repeat split; intros; congruence.
      - intros e He. discriminate.
      - intros; discriminate.
      - intros; discriminate.
      - intros a b c d _ Hp. rewrite (Hcub a b c d Hp). reflexivity.
      - intros; congruence.
      - split; [intros [v Hv]; discriminate|]. intros (_ & _ & H). tauto.
      - intros e He. injection He as <-. reflexivity.
      - intros; discriminate.
      - intros; discriminate.
      - intros a b c d _ Hp. rewrite Hp in E. cbn in E. congruence.
      - intros; congruence. }
    split; [|split; [|split; [|split; [|split]]]].
    + split; [intros _|eauto]. repeat split; intros; congruence.
    + intros e He. discriminate.
    + intros; congruence.
    + intros; congruence.
    + intros; congruence.
    + reflexivity.
Qed.

Lemma arity_is_checked_by_calibrate_witness :
  (exists self,
     LocalizationEngine_init standard_anchors "linear" (Some [1]) 0 0 100 = inr self /\
     forall raw, exists e, calibrate self raw = inl e /\ is_ValueError e = true) /\
  (exists self,
     LocalizationEngine_init standard_anchors "quadratic" (Some [2; 3; 4]) 0 0 100
       = inr self /\
     calibrate self 5 = inr (2 * 5 ^ 2 + 3 * 5 + 4)).
Proof.
  split.
  - destruct (@arity_is_checked_by_calibrate standard_anchors "linear" (Some [1])
                0 0 100) as (self & Hinit & _ & Hparams & Hcal).
    + cbn. lia.
    + exists self. split; [exact Hinit|].
      intros raw. destruct (Hcal raw) as (Hiff & Hclass & _).
      destruct (calibrate self raw) as [e|v] eqn:E.
      * exists e. split; [reflexivity|]. exact (Hclass e eq_refl).
      * destruct (proj1 Hiff (ex_intro _ v eq_refl)) as (Hlin & _).
        specialize (Hlin eq_refl). rewrite Hparams in Hlin. discriminate.
  - destruct (@arity_is_checked_by_calibrate standard_anchors "quadratic"
                (Some [2; 3; 4]) 0 0 100) as (self & Hinit & _ & Hparams & Hcal).
    + cbn. lia.
    + exists self. split; [exact Hinit|].
      exact (proj1 (proj2 (proj2 (proj2 (Hcal 5)))) 2 3 4 eq_refl Hparams).
Defined.

(** C9.  Whatever the calibration type is, as long as it is none of
    'linear', 'quadratic' and 'cubic', [calibrate] returns the raw distance,
    and the parameter list is not looked at. *)
Theorem calibrate_other_types_return_raw (self : LocalizationEngine) (raw : R) :
  calibration_type self <> "linear"%string ->
  calibration_type self <> "quadratic"%string ->
  calibration_type self <> "cubic"%string ->
  calibrate self raw = inr raw.
Proof.
  intros H1 H2 H3. unfold calibrate.
  rewrite (proj2 (String.eqb_neq _ _) H1), (proj2 (String.eqb_neq _ _) H2),
    (proj2 (String.eqb_neq _ _) H3).
  reflexivity.
Qed.

Lemma calibrate_other_types_return_raw_witness :
  calibrate bogus_engine 5 = inr 5.
Proof.
  refine (@calibrate_other_types_return_raw bogus_engine 5 _ _ _);
    cbn; discriminate.
Defined.

Lemma multilateration_entry_validation lx raw_data anchors zs :
  (length (non_zero_data raw_data) < 3 \/
   length anchors < 3 \/
   length (matched_ids (non_zero_data raw_data) anchors) < 3)%nat ->
  exists msg, multilateration lx raw_data anchors zs = inl (ValueError msg).
Proof.
  intros H. unfold multilateration.
  destruct (Nat.ltb_spec (length (non_zero_data raw_data)) 3); [eauto|].
  destruct (Nat.ltb_spec (length anchors) 3); [eauto|].
  destruct (Nat.ltb_spec (length (matched_ids (non_zero_data raw_data) anchors)) 3);
    [eauto|lia].
Qed.

Lemma present_length (d : dict R) : length (present d) = length d.
Proof. unfold present. apply length_map. Qed.

Lemma valid_distances_length (self : LocalizationEngine) (distances : dict (option R)) :
  (length (valid_distances self distances) <= length distances)%nat.
Proof. unfold valid_distances. apply dict_collect_length. Qed.

(** What it means to survive: present and within the inclusive bounds. *)
Lemma valid_distances_spec (self : LocalizationEngine) (distances : dict (option R))
    (k : Z) (d : R) :
  NoDup (keys distances) ->
  (In (k, d) (valid_distances self distances) <->
   In (k, Some d) distances /\ min_range self <= d <= max_range self).
Proof.
  intros Hnd. unfold valid_distances.
  rewrite dict_collect_comprehension by assumption.
  rewrite dict_comprehension_In. split.
  - intros ([d'|] & Hin & H); [|discriminate].
    unfold validate_range in H.
    destruct (Rleb (min_range self) d') eqn:E1; [|discriminate].
    destruct (Rleb d' (max_range self)) eqn:E2; [|discriminate].
    cbn in H. injection H as ->.
    apply Rleb_true in E1. apply Rleb_true in E2. auto.
  - intros (Hin & H1 & H2). exists (Some d). split; [assumption|].
    unfold validate_range.
    rewrite (proj2 (Rleb_true _ _) H1), (proj2 (Rleb_true _ _) H2). reflexivity.
Qed.

(** C6 (the code departs from the docstring of [calculate_position], which
    promises "None if calculation fails").  The handler around the solve is
    [except ValueError] and nothing else.  Whenever the solve fails with an
    exception of another class, as the external solve can, the result of
    [calculate_position] is not [None]: that exception leaves the method and
    reaches the caller. *)
Theorem solver_failure_leaves_calculate_position
    (lx : list (Z * position) -> list (Z * R) -> result position)
    (self : LocalizationEngine) (distances : dict (option R)) (e : exn) :
  is_ValueError e = false ->
  multilateration lx (present (valid_distances self distances))
    (anchor_positions self) (z_sign self) = inl e ->
  calculate_position lx self distances = inl e /\
  calculate_position lx self distances <> inr None.
Proof.
  intros He H.
  assert (Hlen : (3 <= length (valid_distances self distances))%nat).
  { unfold multilateration in H.
    destruct (Nat.ltb_spec
                (length (non_zero_data (present (valid_distances self distances)))) 3)
      as [|H1]; [injection H as <-; discriminate|].
    pose proof (dict_collect_length (fun (_ : Z) (v : option R) => v)
                  (present (valid_distances self distances))) as Hle.
    fold (non_zero_data (present (valid_distances self distances))) in Hle.
    rewrite present_length in Hle. lia. }
  assert (Hout : calculate_position lx self distances = inl e).
  { unfold calculate_position.
    rewrite (proj2 (Nat.ltb_ge _ _) Hlen), H.
    destruct e; try reflexivity. discriminate. }
  split; [exact Hout|]. rewrite Hout. discriminate.
Qed.

(** X25.  What [calculate_position] does turn into [None].  It never raises a
    [ValueError]: when the solver raises one, and in particular when one of
    its three entry checks fails, the result is [None].  An exception of
    another class that arises inside the solve is passed on to the caller. *)
Theorem value_errors_become_no_fix
    (lx : list (Z * position) -> list (Z * R) -> result position)
    (self : LocalizationEngine) (distances : dict (option R)) :
  let valid := valid_distances self distances in
  let solve :=
    multilateration lx (present valid) (anchor_positions self) (z_sign self) in
  (forall msg, calculate_position lx self distances <> inl (ValueError msg)) /\
  (forall msg, solve = inl (ValueError msg) ->
               calculate_position lx self distances = inr None) /\
  ((length (non_zero_data (present valid)) < 3 \/
    length (anchor_positions self) < 3 \/
    length (matched_ids (non_zero_data (present valid)) (anchor_positions self)) < 3)%nat ->
   calculate_position lx self distances = inr None) /\
  (forall e, is_ValueError e = false ->
             (3 <= length valid)%nat ->
             solve = inl e ->
             calculate_position lx self distances = inl e).
Proof.
  intros valid solve.
  assert (Hcatch : forall msg, solve = inl (ValueError msg) ->
                               calculate_position lx self distances = inr None).
  { intros msg H. unfold calculate_position. fold valid. fold solve.
    rewrite H. destruct (Nat.ltb _ _); reflexivity. }
  split; [|split; [exact Hcatch|split]].
  - intros msg. unfold calculate_position. fold valid. fold solve.
    destruct (Nat.ltb _ _); [discriminate|].
    destruct solve as [[]|]; discriminate.
  - intros H.
    destruct (multilateration_entry_validation lx (present valid)
                (anchor_positions self) (z_sign self) H) as (msg & Hmsg).
    exact (Hcatch msg Hmsg).
  - intros e He Hlen H. unfold calculate_position. fold valid. fold solve.
    rewrite (proj2 (Nat.ltb_ge _ _) Hlen), H.
    destruct e; try reflexivity. discriminate.
Qed.

Ltac evaluate_cycle :=
  unfold valid_distances, dict_collect, validate_range;
  cbn [fold_left fst snd min_range max_range anchor_positions z_sign
       unit_cycle disjoint_cycle zero_cycle out_of_range_cycle
       standard_engine];
  decide_reals; cbn [andb dict_set Z.eqb Pos.eqb].

Lemma unit_cycle_valid :
  valid_distances standard_engine unit_cycle = [(1%Z, 1); (2%Z, 1); (3%Z, 1)].
Proof. evaluate_cycle. reflexivity. Qed.

Lemma disjoint_cycle_valid :
  valid_distances standard_engine disjoint_cycle = [(4%Z, 1); (5%Z, 2); (6%Z, 3)].
Proof. evaluate_cycle. reflexivity. Qed.

Lemma out_of_range_cycle_valid :
  valid_distances standard_engine out_of_range_cycle = [(1%Z, 1); (2%Z, 2)].
Proof. evaluate_cycle. reflexivity. Qed.

Lemma zero_cycle_valid :
  valid_distances standard_engine zero_cycle = [(1%Z, 0); (2%Z, 0); (3%Z, 0)].
Proof. evaluate_cycle. reflexivity. Qed.

Lemma solver_failure_leaves_calculate_position_witness :
  calculate_position lx_raises_other standard_engine zero_cycle
    = inl (ExternalError "ZeroDivisionError" "float division by zero") /\
  calculate_position lx_raises_other standard_engine zero_cycle <> inr None.
Proof.
  refine (@solver_failure_leaves_calculate_position
            lx_raises_other standard_engine zero_cycle
            (ExternalError "ZeroDivisionError" "float division by zero") _ _).
  - reflexivity.
  - rewrite zero_cycle_valid. reflexivity.
Defined.

Lemma value_errors_become_no_fix_witness :
  calculate_position lx_raises_value_error standard_engine unit_cycle = inr None /\
  calculate_position lx_origin standard_engine disjoint_cycle = inr None /\
  calculate_position lx_raises_other standard_engine unit_cycle
    = inl (ExternalError "ZeroDivisionError" "float division by zero").
Proof.
  split; [|split].
  - refine (proj1 (proj2 (@value_errors_become_no_fix
              lx_raises_value_error standard_engine unit_cycle))
              "solver did not converge"%string _).
    rewrite unit_cycle_valid. reflexivity.
  - refine (proj1 (proj2 (proj2 (@value_errors_become_no_fix
              lx_origin standard_engine disjoint_cycle))) _).
    rewrite disjoint_cycle_valid. right. right. cbn. lia.
  - refine (proj2 (proj2 (proj2 (@value_errors_become_no_fix
              lx_raises_other standard_engine unit_cycle))) _ _ _ _).
    + reflexivity.
    + rewrite unit_cycle_valid. cbn. lia.
    + rewrite unit_cycle_valid. reflexivity.
Defined.

(** C7.  When fewer than three entries of the cycle are present and within
    the inclusive bounds, [calculate_position] returns [None] whatever the
    solver would do, so the solver is not consulted; the number of entries
    supplied plays no role.  The distances the method receives are the
    calibrated ones: in [_on_distance_update], when fewer than three readings
    are left after [calibrate] and [validate_range], the position is [None]
    as well. *)
Theorem fewer_than_three_survivors_give_no_fix
    (lx : list (Z * position) -> list (Z * R) -> result position)
    (self : LocalizationEngine) :
  (forall distances,
      (length (valid_distances self distances) < 3)%nat ->
      calculate_position lx self distances = inr None) /\
  (forall readings calibrated,
      calibrated_distances self readings [] = inr calibrated ->
      (length calibrated < 3)%nat ->
      _on_distance_update lx self readings = inr None).
Proof.
  assert (H : forall distances,
             (length (valid_distances self distances) < 3)%nat ->
             calculate_position lx self distances = inr None).
  { intros distances Hlt. unfold calculate_position.
    rewrite (proj2 (Nat.ltb_lt _ _) Hlt). reflexivity. }
  split; [exact H|].
  intros readings calibrated Hc Hlt. unfold _on_distance_update.
  rewrite Hc. cbn [rbind]. apply H.
  pose proof (valid_distances_length self (present calibrated)) as Hle.
  rewrite present_length in Hle. lia.
Qed.

Lemma fewer_than_three_survivors_give_no_fix_witness :
  calculate_position lx_raises_other standard_engine out_of_range_cycle = inr None /\
  _on_distance_update lx_raises_other standard_engine out_of_range_readings = inr None.
Proof.
  split.
  - refine (proj1 (@fewer_than_three_survivors_give_no_fix
              lx_raises_other standard_engine) out_of_range_cycle _).
    rewrite out_of_range_cycle_valid. cbn. lia.
  - refine (proj2 (@fewer_than_three_survivors_give_no_fix
              lx_raises_other standard_engine) out_of_range_readings
              [(1%Z, 1); (2%Z, 2)] _ _).
    + unfold calibrated_distances, calibrate, validate_range, out_of_range_readings.
      cbn [standard_engine calibration_type calibration_params min_range max_range
           String.eqb Ascii.eqb Bool.eqb rbind].
      decide_reals. reflexivity.
    + cbn. lia.
Defined.

Lemma Forall2_In_left {A B} (P : A -> B -> Prop) (l : list A) (l' : list B) (a : A) :
  Forall2 P l l' -> In a l -> exists b, In b l' /\ P a b.
Proof.
  induction 1 as [|x y l l' Hxy _ IH]; intros Hin; [contradiction|].
  destruct Hin as [->|Hin].
  - exists y. split; [left; reflexivity|assumption].
  - destruct (IH Hin) as (b & Hb & HP). exists b. split; [right; assumption|assumption].
Qed.

Lemma Forall2_map_fst {B} (f : Z -> result (Z * B)) (l : list Z) (l' : list (Z * B)) :
  (forall i m, f i = inr m -> fst m = i) ->
  Forall2 (fun i m => f i = inr m) l l' ->
  map fst l' = l.
Proof.
  intros Hf. induction 1 as [|x y l l' Hxy _ IH]; cbn; [reflexivity|].
  rewrite (Hf _ _ Hxy), IH. reflexivity.
Qed.

Lemma comprehension_length_filter (raw : dict (option R)) :
  length (dict_comprehension (fun _ v => v) raw) =
  length (filter (fun kv => match snd kv with Some _ => true | None => false end) raw).
Proof.
  induction raw as [|[k [d|]] raw IH]; cbn; [reflexivity| |exact IH].
  f_equal. exact IH.
Qed.

(** C10.  The filter of [multilateration] skips the samples that are [None]
    and nothing else: a sample of exactly 0.0 stays in [non_zero_data], is
    counted by the three-sample test, and, when its anchor is known, is among
    the measures handed to the external solve. *)
Theorem zero_distance_is_a_sample
    (lx : list (Z * position) -> list (Z * R) -> result position)
    (raw_data : dict (option R)) (anchors : dict position) (zs : Z) :
  NoDup (keys raw_data) ->
  (forall k d, In (k, d) (non_zero_data raw_data) <-> In (k, Some d) raw_data) /\
  (forall k, In (k, Some 0) raw_data -> In (k, 0) (non_zero_data raw_data)) /\
  length (non_zero_data raw_data) =
    length (filter (fun kv => match snd kv with Some _ => true | None => false end)
              raw_data) /\
  ((3 <= length (non_zero_data raw_data))%nat ->
   (3 <= length anchors)%nat ->
   (3 <= length (matched_ids (non_zero_data raw_data) anchors))%nat ->
   exists placed measures,
     multilateration lx raw_data anchors zs =
       rbind (lx placed measures) (fun loc => inr (force_z_sign zs loc)) /\
     map fst measures = matched_ids (non_zero_data raw_data) anchors /\
     forall k, In (k, Some 0) raw_data -> dict_mem anchors k = true ->
               In (k, 0) measures).
Proof.
  intros Hnd.
  assert (Enz : non_zero_data raw_data = dict_comprehension (fun _ v => v) raw_data).
  { unfold non_zero_data. apply dict_collect_comprehension. assumption. }
  assert (Hin : forall k d, In (k, d) (non_zero_data raw_data) <-> In (k, Some d) raw_data).
  { intros k d. rewrite Enz, dict_comprehension_In. split.
    - intros (v & Hv & ->). assumption.
    - intros H. eauto. }
  assert (Hnd' : NoDup (keys (non_zero_data raw_data))).
  { rewrite Enz. apply dict_comprehension_NoDup. assumption. }
  split; [exact Hin|]. split; [intros k H; apply Hin; assumption|].
  split; [rewrite Enz; apply comprehension_length_filter|].
  intros H1 H2 H3. unfold multilateration.
  rewrite (proj2 (Nat.ltb_ge _ _) H1), (proj2 (Nat.ltb_ge _ _) H2),
    (proj2 (Nat.ltb_ge _ _) H3).
  set (nz := non_zero_data raw_data) in *.
  set (matched := matched_ids nz anchors) in *.
  destruct (rmap_all_ok
              (fun i => rbind (dict_item anchors i) (fun p => inr (i, p))) matched)
    as (placed & Hplaced & _).
  { intros i Hi. apply filter_In in Hi as [_ Hmem].
    unfold dict_mem in Hmem. unfold dict_item.
    destruct (dict_get anchors i); [cbn; eauto|discriminate]. }
  destruct (rmap_all_ok
              (fun i => rbind (dict_item nz i) (fun d => inr (i, d))) matched)
    as (measures & Hmeasures & HF).
  { intros i Hi. apply filter_In in Hi as [Hkey _].
    destruct (dict_get_key nz i Hkey) as (d & Hd).
    unfold dict_item. rewrite Hd. cbn. eauto. }
  exists placed, measures. rewrite Hplaced, Hmeasures. cbn [rbind].
  split; [reflexivity|]. split.
  - eapply Forall2_map_fst; [|exact HF].
    intros i m Hm. cbn beta in Hm. unfold dict_item in Hm.
    destruct (dict_get nz i); cbn in Hm; [|discriminate].
    injection Hm as <-. reflexivity.
  - intros k Hk Hmem.
    assert (Hknz : In (k, 0) nz) by (apply Hin; assumption).
    assert (Hkm : In k matched).
    { apply filter_In. split; [|assumption].
      change k with (fst (k, 0)). apply in_map. assumption. }
    destruct (Forall2_In_left k HF Hkm) as (m & Hm & Hfm).
    cbn beta in Hfm. unfold dict_item in Hfm.
    rewrite (dict_get_In nz k 0 Hnd' Hknz) in Hfm. cbn in Hfm.
    injection Hfm as <-. assumption.
Qed.

Lemma zero_cycle_keys : NoDup (keys zero_cycle).
Proof.
  cbn. repeat constructor; cbn; intuition discriminate.
Qed.

Lemma zero_distance_is_a_sample_witness :
  In (1%Z, 0) (non_zero_data zero_cycle) /\
  exists placed measures,
    multilateration lx_origin zero_cycle standard_anchors 0 =
      rbind (lx_origin placed measures) (fun loc => inr (force_z_sign 0 loc)) /\
    map fst measures = matched_ids (non_zero_data zero_cycle) standard_anchors /\
    forall k, In (k, Some 0) zero_cycle -> dict_mem standard_anchors k = true ->
              In (k, 0) measures.
Proof.
  pose proof (@zero_distance_is_a_sample lx_origin zero_cycle standard_anchors 0
                zero_cycle_keys) as (_ & Hkeep & _ & Hsolve).
  split.
  - apply Hkeep. left. reflexivity.
  - apply Hsolve; cbn; lia.
Defined.

End CoreClaims.

(** * Further properties of the code *)

Section FramerProperties.

Import InputAdapters Framing Samples MoreSamples.

Lemma list_set_other {A} (l : list A) :
  forall i j x d, i <> j -> nth i (list_set l j x) d = nth i l d.
Proof.
  induction l as [|a l IH]; intros i j x d H.
  - destruct j; reflexivity.
  - destruct j as [|j], i as [|i]; cbn; try reflexivity; try congruence.
    apply IH. congruence.
Qed.

Lemma mod_offset_injective (N a i j : nat) :
  (i < j)%nat -> (j < N)%nat -> (a + i) mod N <> (a + j) mod N.
Proof.
  intros Hij HjN E.
  pose proof (Nat.div_mod_eq (a + i) N) as H1.
  pose proof (Nat.div_mod_eq (a + j) N) as H2.
  rewrite E in H1.
  assert (Hq : ((a + i) / N <= (a + j) / N)%nat) by (apply Nat.Div0.div_le_mono; lia).
  set (q1 := ((a + i) / N)%nat) in *. set (q2 := ((a + j) / N)%nat) in *.
  set (r := ((a + j) mod N)%nat) in *.
  destruct (Nat.eq_dec q1 q2) as [Eq|Ne]; [rewrite Eq in H1; lia|].
  assert (Hstep : (N * q2 >= N * q1 + N)%nat) by nia.
  lia.
Qed.

(** One iteration of the loop of [append] on a buffer whose indices are in
    range: it cannot raise, and it writes exactly when the span is storable. *)
Lemma append_item_step (item : bytes) (self : CircularBuffer) :
  indices_in_range self ->
  exists self',
    append_item item self = (inr tt, self') /\
    indices_in_range self' /\
    length (buffer self') = length (buffer self) /\
    element_size self' = element_size self /\
    tail self' = tail self /\
    (if is_storable (element_size self) item
     then buffer self' = list_set (buffer self) (head self) item /\
          head self' = ((head self + 1) mod length (buffer self))%nat /\
          size self' = (size self + 1)%nat
     else self' = self).
Proof.
  intros (HN & Hh & Ht). unfold append_item, is_storable.
  destruct (Nat.eqb_spec (length item) 0) as [E0|E0]; cbn [negb andb].
  { exists self. unfold indices_in_range. auto 10. }
  destruct (Nat.ltb_spec (element_size self) (length item)) as [E1|E1]; cbn [negb].
  { exists self. unfold indices_in_range. auto 10. }
  destruct (Nat.ltb_spec (head self) (length (buffer self))) as [E2|E2]; [|lia].
  eexists. split; [reflexivity|]. unfold indices_in_range.
  cbn [buffer head tail size element_size]. rewrite list_set_length.
  repeat split; auto. apply Nat.mod_upper_bound. lia.
Qed.

Lemma pending_after_write (self : CircularBuffer) (item : bytes) :
  indices_in_range self ->
  in_sync self ->
  (size self < length (buffer self))%nat ->
  pending {| buffer := list_set (buffer self) (head self) item;
             head := (head self + 1) mod length (buffer self);
             size := size self + 1;
             tail := tail self;
             element_size := element_size self |}
  = pending self ++ [item].
Proof.
  intros (HN & Hh & Ht) Hsync Hroom. unfold pending.
  cbn [buffer size tail]. rewrite list_set_length.
  rewrite seq_app, map_app. cbn [seq map Nat.add]. f_equal.
  - apply map_ext_in. intros i Hi. apply in_seq in Hi.
    apply list_set_other. rewrite Hsync.
    apply mod_offset_injective; lia.
  - rewrite <- Hsync. f_equal.
    apply nth_error_nth. apply list_set_same. assumption.
Qed.

Lemma for_each_append_item_run (l : list bytes) :
  forall self,
    indices_in_range self ->
    exists self',
      for_each l append_item self = (inr tt, self') /\
      indices_in_range self' /\
      length (buffer self') = length (buffer self) /\
      element_size self' = element_size self /\
      tail self' = tail self /\
      size self' =
        (size self + length (filter (is_storable (element_size self)) l))%nat /\
      head self' =
        ((head self + length (filter (is_storable (element_size self)) l))
           mod length (buffer self))%nat.
Proof.
  induction l as [|item l IH]; intros self Hin.
  - exists self. cbn. destruct Hin as (HN & Hh & Ht).
    rewrite !Nat.add_0_r, Nat.mod_small by assumption.
    unfold indices_in_range. auto 10.
  - destruct (append_item_step item Hin) as (s1 & E1 & Hin1 & HN1 & He1 & Ht1 & Hcase).
    destruct (IH s1 Hin1) as (s2 & E2 & Hin2 & HN2 & He2 & Ht2 & Hs2 & Hh2).
    exists s2. cbn [for_each]. unfold bind. rewrite E1, E2.
    split; [reflexivity|]. split; [assumption|].
    split; [congruence|]. split; [congruence|]. split; [congruence|].
    rewrite He1, HN1 in *. cbn [filter].
    destruct (is_storable (element_size self) item).
    + destruct Hcase as (_ & Hh1 & Hs1). cbn [length]. split; [lia|].
      rewrite Hh2, Hh1, Nat.Div0.add_mod_idemp_l. f_equal. lia.
    + subst s1. auto.
Qed.

(** Without overflow the loop of [append] queues the storable spans behind
    what is pending, in order. *)
Lemma for_each_append_item_fifo (l : list bytes) :
  forall self,
    indices_in_range self ->
    in_sync self ->
    (size self + length (filter (is_storable (element_size self)) l)
       <= length (buffer self))%nat ->
    exists self',
      for_each l append_item self = (inr tt, self') /\
      in_sync self' /\
      pending self' = pending self ++ filter (is_storable (element_size self)) l.
Proof.
  induction l as [|item l IH]; intros self Hin Hsync Hroom.
  - exists self. cbn. rewrite app_nil_r. auto.
  - destruct (append_item_step item Hin) as (s1 & E1 & Hin1 & HN1 & He1 & Ht1 & Hcase).
    cbn [filter] in *.
    destruct (is_storable (element_size self) item) eqn:Est.
    + destruct Hcase as (Hb1 & Hh1 & Hs1). cbn [length] in Hroom.
      assert (Hsync1 : in_sync s1).
      { unfold in_sync. rewrite Hh1, Ht1, Hs1, HN1, Hsync.
        rewrite Nat.Div0.add_mod_idemp_l. f_equal. lia. }
      destruct (IH s1 Hin1 Hsync1) as (s2 & E2 & Hsync2 & Hp2).
      { rewrite He1, HN1, Hs1. lia. }
      exists s2. cbn [for_each]. unfold bind. rewrite E1, E2.
      split; [reflexivity|]. split; [assumption|].
      rewrite Hp2, He1.
      assert (Hp1 : pending s1 = pending self ++ [item]).
      { rewrite <- (@pending_after_write self item Hin Hsync) by lia.
        unfold pending. cbn [buffer tail size].
        rewrite Ht1, Hs1, HN1, Hb1, list_set_length. reflexivity. }
      rewrite Hp1, <- app_assoc. reflexivity.
    + subst s1. destruct (IH self Hin Hsync Hroom) as (s2 & E2 & Hsync2 & Hp2).
      exists s2. cbn [for_each]. unfold bind. rewrite E1, E2. auto.
Qed.

Lemma well_formed_indices (self : CircularBuffer) :
  well_formed self -> indices_in_range self.
Proof. intros (HN & Hh & Ht & _). unfold indices_in_range. auto. Qed.

Lemma init_well_formed (n e : nat) :
  (0 < n)%nat ->
  well_formed (CircularBuffer_init n e) /\ in_sync (CircularBuffer_init n e).
Proof.
  intros Hn. unfold well_formed, in_sync, CircularBuffer_init.
  cbn [buffer head tail size]. rewrite repeat_length.
  rewrite Nat.add_0_r, Nat.mod_small by assumption. lia.
Qed.

Lemma append_well_formed (self : CircularBuffer) (item : option bytes) :
  well_formed self ->
  exists self',
    append item self = (inr tt, self') /\
    well_formed self' /\
    length (buffer self') = length (buffer self) /\
    element_size self' = element_size self.
Proof.
  intros Hwf. destruct item as [chunk|].
  - destruct (for_each_append_item_run (split chunk) (well_formed_indices Hwf))
      as (s1 & E1 & (HN1 & Hh1 & Ht1) & HNeq & He & _).
    cbn [append]. unfold bind. rewrite E1. unfold clamp_size.
    destruct (Nat.ltb_spec (length (buffer s1)) (size s1)) as [E|E];
      eexists; (split; [reflexivity|]); unfold well_formed;
      cbn [buffer head tail size element_size]; repeat split; auto; lia.
  - exists self. cbn. auto.
Qed.

Lemma pop_well_formed (self : CircularBuffer) :
  well_formed self ->
  exists x self',
    pop self = (inr x, self') /\
    well_formed self' /\
    length (buffer self') = length (buffer self) /\
    element_size self' = element_size self /\
    (size self = 0%nat -> x = None /\ self' = self) /\
    (in_sync self -> in_sync self').
Proof.
  intros Hwf. destruct (Nat.eq_dec (size self) 0) as [E0|E0].
  - exists None, self. unfold pop. rewrite E0. cbn. auto 10.
  - destruct (@pop_pending self Hwf) as (x & s1 & E & _ & Hb & Hs & Hwf1); [lia|].
    exists (Some x), s1. split; [assumption|]. split; [assumption|].
    split; [congruence|].
    assert (Hshape : s1 = {| buffer := buffer self; head := head self;
                             size := size self - 1;
                             tail := (tail self + 1) mod length (buffer self);
                             element_size := element_size self |}).
    { unfold pop in E. destruct (Nat.eqb_spec (size self) 0); [lia|].
      destruct (nth_error (buffer self) (tail self)); [|discriminate].
      injection E as _ <-. reflexivity. }
    split; [rewrite Hshape; reflexivity|]. split; [lia|].
    intros Hsync. rewrite Hshape. unfold in_sync in *. cbn [buffer head tail size].
    rewrite Hsync, Nat.Div0.add_mod_idemp_l. f_equal. lia.
Qed.

(** X1.  The buffer keeps itself well formed.  A buffer built with a
    positive capacity has its indices and counter within the capacity; on
    such a buffer [append] and [pop] never raise and leave it well formed,
    with the same capacity and the same [element_size]; [pop] on an empty
    buffer returns [None] and changes nothing. *)
Theorem ring_buffer_invariant :
  (forall n e, (0 < n)%nat -> well_formed (CircularBuffer_init n e)) /\
  (forall self item,
     well_formed self ->
     exists self',
       append item self = (inr tt, self') /\
       well_formed self' /\
       length (buffer self') = length (buffer self) /\
       element_size self' = element_size self) /\
  (forall self,
     well_formed self ->
     exists x self',
       pop self = (inr x, self') /\
       well_formed self' /\
       length (buffer self') = length (buffer self) /\
       element_size self' = element_size self /\
       (size self = 0%nat -> x = None /\ self' = self)).
Proof.
  split; [|split].
  - intros n e Hn. apply init_well_formed. assumption.
  - intros self item Hwf. apply append_well_formed. assumption.
  - intros self Hwf.
    destruct (pop_well_formed Hwf) as (x & s1 & E & Hw & HN & He & H0 & _).
    exists x, s1. auto 10.
Qed.

Lemma ring_buffer_invariant_witness :
  well_formed SerialInputAdapter_buffer /\
  (exists self',
     append (Some noisy_chunk) SerialInputAdapter_buffer = (inr tt, self') /\
     well_formed self' /\
     length (buffer self') = length (buffer SerialInputAdapter_buffer) /\
     element_size self' = element_size SerialInputAdapter_buffer) /\
  (exists x self',
     pop SerialInputAdapter_buffer = (inr x, self') /\
     well_formed self' /\
     length (buffer self') = length (buffer SerialInputAdapter_buffer) /\
     element_size self' = element_size SerialInputAdapter_buffer /\
     (size SerialInputAdapter_buffer = 0%nat ->
      x = None /\ self' = SerialInputAdapter_buffer)).
Proof.
  assert (Hwf : well_formed SerialInputAdapter_buffer).
  { refine (proj1 ring_buffer_invariant 100%nat 7%nat _). lia. }
  split; [exact Hwf|]. split.
  - exact (proj1 (proj2 ring_buffer_invariant) _ (Some noisy_chunk) Hwf).
  - exact (proj2 (proj2 ring_buffer_invariant) _ Hwf).
Defined.

(** X2.  [append] counts what it stores: after appending a chunk the
    counter is the old counter plus the number of storable spans, capped at
    the capacity; [head] has advanced by that number modulo the capacity and
    [tail] has not moved. *)
Theorem append_counts_storable_spans (self : CircularBuffer) (chunk : bytes) :
  well_formed self ->
  size (snd (append (Some chunk) self)) =
    Nat.min (size self + length (storable self chunk)) (length (buffer self)) /\
  head (snd (append (Some chunk) self)) =
    ((head self + length (storable self chunk)) mod length (buffer self))%nat /\
  tail (snd (append (Some chunk) self)) = tail self.
Proof.
  intros Hwf.
  destruct (for_each_append_item_run (split chunk) (well_formed_indices Hwf))
    as (s1 & E1 & _ & HN & _ & Ht & Hs & Hh).
  cbn [append]. unfold bind. rewrite E1. unfold clamp_size, storable.
  destruct (Nat.ltb_spec (length (buffer s1)) (size s1)) as [E|E];
    cbn [snd size head tail]; repeat split; auto; lia.
Qed.

(** X3.  First in, first out while there is room.  On a buffer whose
    writer is [size] slots ahead of its reader, a chunk whose storable spans
    fit into the free slots is queued behind what was pending, in the order
    of the chunk, and popping everything returns exactly that sequence. *)
Theorem append_then_pop_is_fifo (self : CircularBuffer) (chunk : bytes) :
  well_formed self ->
  in_sync self ->
  (size self + length (storable self chunk) <= length (buffer self))%nat ->
  exists self',
    append (Some chunk) self = (inr tt, self') /\
    in_sync self' /\
    pending self' = pending self ++ storable self chunk /\
    fst (pop_n (size self') self') =
      inr (map Some (pending self ++ storable self chunk)).
Proof.
  intros Hwf Hsync Hroom.
  destruct (for_each_append_item_fifo (split chunk) (well_formed_indices Hwf) Hsync Hroom)
    as (s1 & E1 & Hsync1 & Hp1).
  destruct (@append_well_formed self (Some chunk) Hwf) as (s2 & E2 & Hwf2 & _).
  assert (Es : s2 = s1).
  { cbn [append] in E2. unfold bind in E2. rewrite E1 in E2.
    rewrite clamp_size_id in E2; [congruence|].
    rewrite <- pending_length, Hp1, length_app, pending_length.
    destruct (for_each_append_item_run (split chunk) (well_formed_indices Hwf))
      as (s1' & E1' & _ & HN & _).
    rewrite E1 in E1'. injection E1' as <-. rewrite HN. exact Hroom. }
  subst s2. exists s1. split; [assumption|]. split; [assumption|].
  split; [assumption|].
  destruct (@pop_n_pending (size s1) s1 Hwf2 eq_refl) as (s3 & Hpop & _).
  rewrite Hpop, Hp1. reflexivity.
Qed.

Lemma append_then_pop_is_fifo_witness :
  exists self',
    append (Some noisy_chunk) SerialInputAdapter_buffer = (inr tt, self') /\
    in_sync self' /\
    pending self' =
      pending SerialInputAdapter_buffer ++ storable SerialInputAdapter_buffer noisy_chunk /\
    fst (pop_n (size self') self') =
      inr (map Some (pending SerialInputAdapter_buffer
                       ++ storable SerialInputAdapter_buffer noisy_chunk)).
Proof.
  refine (@append_then_pop_is_fifo SerialInputAdapter_buffer noisy_chunk _ _ _).
  - unfold well_formed. vm_compute. repeat split; lia.
  - reflexivity.
  - vm_compute. lia.
Defined.

Lemma append_counts_storable_spans_witness :
  size (snd (append (Some noisy_chunk) SerialInputAdapter_buffer)) =
    Nat.min (size SerialInputAdapter_buffer
             + length (storable SerialInputAdapter_buffer noisy_chunk))
            (length (buffer SerialInputAdapter_buffer)) /\
  head (snd (append (Some noisy_chunk) SerialInputAdapter_buffer)) =
    ((head SerialInputAdapter_buffer
      + length (storable SerialInputAdapter_buffer noisy_chunk))
       mod length (buffer SerialInputAdapter_buffer))%nat /\
  tail (snd (append (Some noisy_chunk) SerialInputAdapter_buffer)) =
    tail SerialInputAdapter_buffer.
Proof.
  refine (@append_counts_storable_spans SerialInputAdapter_buffer noisy_chunk _).
  unfold well_formed. vm_compute. repeat split; lia.
Defined.

Lemma for_each_nothing_storable (l : list bytes) (self : CircularBuffer) :
  filter (is_storable (element_size self)) l = [] ->
  for_each l append_item self = (inr tt, self).
Proof.
  induction l as [|item l IH]; intros H; [reflexivity|].
  cbn [filter] in H. destruct (is_storable (element_size self) item) eqn:E;
    [discriminate|].
  cbn [for_each]. unfold bind.
  assert (E1 : append_item item self = (inr tt, self)).
  { unfold append_item. unfold is_storable in E.
    destruct (Nat.eqb (length item) 0); [reflexivity|].
    destruct (Nat.ltb (element_size self) (length item)); [reflexivity|discriminate]. }
  rewrite E1. apply IH. assumption.
Qed.

Lemma split_of_delimiters (k : nat) :
  forall cur, split_from 0 cur (concat (repeat delimiter k)) = rev cur :: repeat [] k.
Proof.
  induction k as [|k IH]; intros cur; [reflexivity|].
  cbn [repeat concat]. unfold delimiter at 1.
  cbn [app split_from starts_with delimiter Byte.eqb].
  change (Byte.eqb xff xff) with true. change (Byte.eqb x00 x00) with true.
  cbn [andb]. rewrite IH. reflexivity.
Qed.

(** X5.  A chunk none of whose spans passes the guards of [append] (all of
    them empty or longer than [element_size]: an empty chunk, a run of
    delimiters, oversized garbage) leaves the buffer exactly as it was; so
    does [append(None)]. *)
Theorem append_without_storable_span_changes_nothing
    (self : CircularBuffer) (chunk : bytes) :
  (size self <= length (buffer self))%nat ->
  storable self chunk = [] ->
  append (Some chunk) self = (inr tt, self) /\
  append None self = (inr tt, self).
Proof.
  intros Hsz Hnone. split; [|reflexivity].
  cbn [append]. unfold bind.
  rewrite for_each_nothing_storable by exact Hnone.
  apply clamp_size_id. assumption.
Qed.

Lemma append_without_storable_span_changes_nothing_witness :
  append (Some skipped_chunk) SerialInputAdapter_buffer
    = (inr tt, SerialInputAdapter_buffer) /\
  append None SerialInputAdapter_buffer = (inr tt, SerialInputAdapter_buffer).
Proof.
  refine (@append_without_storable_span_changes_nothing
            SerialInputAdapter_buffer skipped_chunk _ _).
  - cbn. lia.
  - reflexivity.
Defined.

(** A run of delimiters splits into empty spans only. *)
Lemma storable_of_delimiters (self : CircularBuffer) (k : nat) :
  storable self (concat (repeat delimiter k)) = [].
Proof.
  unfold storable, split. rewrite split_of_delimiters.
  cbn [rev filter is_storable length Nat.eqb negb andb].
  induction k as [|k IH]; [reflexivity|]. cbn. assumption.
Qed.

Lemma overwrite_is_read_first_witness :
  exists self',
    append (Some ["4"%byte]) full_buffer = (inr tt, self') /\
    size self' = length (buffer self') /\
    tail self' = tail full_buffer /\
    fst (pop self') = inr (Some ["4"%byte]).
Proof.
  refine (@overwrite_is_read_first full_buffer ["4"%byte] _ _ _ _ _).
  - unfold well_formed. vm_compute. repeat split; lia.
  - reflexivity.
  - reflexivity.
  - reflexivity.
  - vm_compute. lia.
Defined.

End FramerProperties.

Section SplitProperties.

Import InputAdapters Framing Samples.

Lemma starts_with_delimiter (s : bytes) :
  starts_with delimiter s = true -> exists rest, s = delimiter ++ rest.
Proof.
  unfold delimiter.
  destruct s as [|c0 [|c1 [|c2 [|c3 rest]]]]; cbn [starts_with];
    intros H; try discriminate;
    repeat (apply andb_true_iff in H as [? H]); try discriminate.
  exists rest.
  repeat match goal with
         | E : Byte.eqb _ _ = true |- _ => apply Byte.byte_dec_bl in E; subst
         end.
  reflexivity.
Qed.

Lemma split_from_at_delimiter (cur rest : bytes) :
  split_from 0 cur (delimiter ++ rest) = rev cur :: split_from 0 [] rest.
Proof. reflexivity. Qed.

Lemma split_from_accumulator (s : bytes) :
  forall cur,
    exists h t,
      split_from 0 [] s = h :: t /\ split_from 0 cur s = (rev cur ++ h) :: t.
Proof.
  induction s as [|c s IH]; intros cur.
  - exists [], []. cbn. rewrite app_nil_r. auto.
  - destruct (starts_with delimiter (c :: s)) eqn:E.
    + destruct (starts_with_delimiter _ E) as (rest & ->).
      rewrite !split_from_at_delimiter. exists [], (split_from 0 [] rest).
      cbn. rewrite app_nil_r. auto.
    + cbn [split_from]. rewrite E.
      destruct (IH [c]) as (h & t & E0 & E1).
      destruct (IH (c :: cur)) as (h' & t' & E0' & E2).
      rewrite E0 in E0'. injection E0' as <- <-.
      exists (c :: h), t. rewrite E1, E2. cbn [rev app].
      rewrite <- app_assoc. auto.
Qed.

Lemma join_head (sep : bytes) (c : byte) (h : bytes) (t : list bytes) :
  join sep ((c :: h) :: t) = c :: join sep (h :: t).
Proof. destruct t; reflexivity. Qed.

Lemma join_more (sep a h : bytes) (t : list bytes) :
  join sep (a :: h :: t) = a ++ sep ++ join sep (h :: t).
Proof. reflexivity. Qed.

Lemma split_join_bounded (n : nat) :
  forall s, (length s <= n)%nat -> join delimiter (split s) = s.
Proof.
  unfold split. induction n as [|n IH]; intros s Hn.
  - destruct s; [reflexivity|cbn in Hn; lia].
  - destruct s as [|c s]; [reflexivity|].
    destruct (starts_with delimiter (c :: s)) eqn:E.
    + destruct (starts_with_delimiter _ E) as (rest & Hs). rewrite Hs.
      rewrite split_from_at_delimiter.
      destruct (split_from_accumulator rest []) as (h & t & E0 & _).
      assert (Hrest : join delimiter (split_from 0 [] rest) = rest).
      { apply IH. rewrite Hs in Hn. rewrite length_app in Hn. cbn in Hn. lia. }
      rewrite E0 in *. cbn [rev]. rewrite join_more, Hrest. reflexivity.
    + cbn [split_from]. rewrite E.
      destruct (split_from_accumulator s [c]) as (h & t & E0 & E1).
      rewrite E1. cbn [rev app]. rewrite join_head, <- E0.
      f_equal. apply IH. cbn in Hn. lia.
Qed.

Lemma starts_with_app (p a s : bytes) :
  starts_with p a = true -> starts_with p (a ++ s) = true.
Proof.
  revert a. induction p as [|x p IH]; intros a H; [reflexivity|].
  destruct a as [|y a]; [discriminate|]. cbn in *.
  apply andb_true_iff in H as [H1 H2]. rewrite H1, (IH _ H2). reflexivity.
Qed.

Lemma contains_delimiter_position (s : bytes) :
  contains_delimiter s = true ->
  exists k, (k < length s)%nat /\ starts_with delimiter (skipn k s) = true.
Proof.
  induction s as [|c s IH]; intros H; [discriminate|].
  cbn [contains_delimiter] in H. apply orb_true_iff in H as [H|H].
  - exists 0%nat. cbn. split; [lia|assumption].
  - destruct (IH H) as (k & Hk & Hs). exists (S k). cbn. split; [lia|assumption].
Qed.

Lemma clean_prefix_has_no_delimiter (cur s : bytes) :
  (forall k, (k < length cur)%nat ->
             starts_with delimiter (skipn k (rev cur ++ s)) = false) ->
  contains_delimiter (rev cur) = false.
Proof.
  intros Hclean. destruct (contains_delimiter (rev cur)) eqn:E; [|reflexivity].
  destruct (contains_delimiter_position _ E) as (k & Hk & Hs).
  rewrite length_rev in Hk. specialize (Hclean k Hk).
  rewrite skipn_app in Hclean.
  replace (k - length (rev cur))%nat with 0%nat in Hclean
    by (rewrite length_rev; lia).
  cbn [skipn] in Hclean. rewrite (starts_with_app _ _ s Hs) in Hclean. discriminate.
Qed.

Lemma split_spans_clean_bounded (n : nat) :
  forall s cur,
    (length s <= n)%nat ->
    (forall k, (k < length cur)%nat ->
               starts_with delimiter (skipn k (rev cur ++ s)) = false) ->
    Forall (fun span => contains_delimiter span = false) (split_from 0 cur s).
Proof.
  induction n as [|n IH]; intros s cur Hn Hclean.
  - destruct s; [|cbn in Hn; lia]. cbn. constructor; [|constructor].
    eapply clean_prefix_has_no_delimiter. eassumption.
  - destruct s as [|c s].
    { cbn. constructor; [|constructor].
      eapply clean_prefix_has_no_delimiter. eassumption. }
    destruct (starts_with delimiter (c :: s)) eqn:E.
    + destruct (starts_with_delimiter _ E) as (rest & Hs).
      rewrite Hs, split_from_at_delimiter. constructor.
      * eapply clean_prefix_has_no_delimiter. eassumption.
      * apply IH.
        -- rewrite Hs in Hn. rewrite length_app in Hn. cbn in Hn. lia.
        -- cbn. intros k Hk. lia.
    + cbn [split_from]. rewrite E. apply IH; [cbn in Hn; lia|].
      intros k Hk. cbn [length] in Hk. cbn [rev]. rewrite <- app_assoc. cbn [app].
      destruct (Nat.eq_dec k (length cur)) as [->|Hne].
      * rewrite skipn_app, <- (length_rev cur), skipn_all, Nat.sub_diag.
        cbn. exact E.
      * apply Hclean. lia.
Qed.

(** X6.  Splitting loses nothing but the delimiters: the spans of a chunk
    joined by the delimiter give the chunk back, no span contains the
    delimiter, and there is always at least one span. *)
Theorem split_loses_only_delimiters (chunk : bytes) :
  join delimiter (split chunk) = chunk /\
  Forall (fun span => contains_delimiter span = false) (split chunk) /\
  split chunk <> [].
Proof.
  split; [|split].
  - apply (@split_join_bounded (length chunk)). lia.
  - apply (@split_spans_clean_bounded (length chunk)); [lia|].
    cbn. intros k Hk. lia.
  - unfold split. destruct (split_from_accumulator chunk []) as (h & t & E & _).
    rewrite E. discriminate.
Qed.

End SplitProperties.

Section MessageProperties.

Import InputAdapters Framing Samples.

Lemma byte_val_range (b : byte) : (0 <= byte_val b <= 255)%Z.
Proof. unfold byte_val. pose proof (Byte.to_N_bounded b). lia. Qed.

Lemma lor_above (a c n : Z) :
  (0 <= n)%Z -> (0 <= a < 2 ^ n)%Z -> (0 <= c)%Z ->
  Z.lor a (c * 2 ^ n) = (a + c * 2 ^ n)%Z.
Proof.
  intros Hn Ha Hc.
  assert (Hland : Z.land a (c * 2 ^ n) = 0%Z).
  { apply Z.bits_inj'. intros m Hm. rewrite Z.land_spec, Z.bits_0.
    destruct (Z.lt_ge_cases m n) as [Hlt|Hge].
    - rewrite Z.mul_pow2_bits_low by assumption. apply andb_false_r.
    - rewrite <- (Z.mod_small a (2 ^ n)) by assumption.
      rewrite Z.mod_pow2_bits_high by lia. reflexivity. }
  rewrite <- Z.lxor_lor by assumption.
  symmetry. apply Z.add_nocarry_lxor. assumption.
Qed.

Lemma little_endian_value (b1 b2 b3 b4 : Z) :
  (0 <= b1 <= 255)%Z -> (0 <= b2 <= 255)%Z ->
  (0 <= b3 <= 255)%Z -> (0 <= b4 <= 255)%Z ->
  Z.lor b1 (Z.lor (Z.shiftl b2 8) (Z.lor (Z.shiftl b3 16) (Z.shiftl b4 24)))
  = (b1 + 256 * b2 + 65536 * b3 + 16777216 * b4)%Z.
Proof.
  intros H1 H2 H3 H4. rewrite !Z.shiftl_mul_pow2 by lia.
  assert (P8 : (2 ^ 8 = 256)%Z) by reflexivity.
  assert (P16 : (2 ^ 16 = 65536)%Z) by reflexivity.
  assert (P24 : (2 ^ 24 = 16777216)%Z) by reflexivity.
  rewrite (@lor_above (b3 * 2 ^ 16) b4 24) by lia.
  replace (b3 * 2 ^ 16 + b4 * 2 ^ 24)%Z
    with ((b3 + b4 * 2 ^ 8) * 2 ^ 16)%Z by (rewrite P8, P16, P24; ring).
  rewrite (@lor_above (b2 * 2 ^ 8) (b3 + b4 * 2 ^ 8) 16) by lia.
  replace (b2 * 2 ^ 8 + (b3 + b4 * 2 ^ 8) * 2 ^ 16)%Z
    with ((b2 + b3 * 2 ^ 8 + b4 * 2 ^ 16) * 2 ^ 8)%Z by (rewrite P8, P16; ring).
  rewrite (@lor_above b1 (b2 + b3 * 2 ^ 8 + b4 * 2 ^ 16) 8) by lia.
  rewrite P8, P16. ring.
Qed.

(** X7.  A span that decodes has exactly five bytes; the id is its first
    byte, the distance is the little-endian value of the other four, so the
    id is at most 255, the distance at most 4294967295 mm, and the value the
    read loop stores lies between 0 and 4294967.295 m. *)
Theorem decoded_frame_is_little_endian (d : bytes) (m : Message) :
  Message_init d = inr m ->
  (exists b0 b1 b2 b3 b4,
      d = [b0; b1; b2; b3; b4] /\
      id m = byte_val b0 /\
      data m = (byte_val b1 + 256 * byte_val b2 + 65536 * byte_val b3
                + 16777216 * byte_val b4)%Z) /\
  (0 <= id m <= 255)%Z /\
  (0 <= data m <= 4294967295)%Z /\
  (0 <= raw_val m <= 4294967295 / 1000)%R.
Proof.
  intros H.
  destruct d as [|b0 [|b1 [|b2 [|b3 [|b4 [|? ?]]]]]]; try discriminate.
  assert (E : {| id := byte_val b0;
                 data := Z.lor (byte_val b1)
                           (Z.lor (Z.shiftl (byte_val b2) 8)
                              (Z.lor (Z.shiftl (byte_val b3) 16)
                                 (Z.shiftl (byte_val b4) 24))) |} = m)
    by (unfold Message_init in H; congruence).
  clear H. rewrite <- E. clear E. cbn [id data].
  pose proof (byte_val_range b0). pose proof (byte_val_range b1).
  pose proof (byte_val_range b2). pose proof (byte_val_range b3).
  pose proof (byte_val_range b4).
  rewrite little_endian_value by assumption.
  split; [exists b0, b1, b2, b3, b4; auto|]. split; [assumption|].
  assert (Hd : (0 <= byte_val b1 + 256 * byte_val b2 + 65536 * byte_val b3
                     + 16777216 * byte_val b4 <= 4294967295)%Z) by lia.
  split; [exact Hd|].
  unfold raw_val. cbn [data].
  destruct Hd as [Hlo Hhi]. apply IZR_le in Hlo. apply IZR_le in Hhi.
  split; lra.
Qed.

Lemma decoded_frame_is_little_endian_witness :
  (exists b0 b1 b2 b3 b4,
      frame1 = [b0; b1; b2; b3; b4] /\
      id {| id := 1; data := 5000 |} = byte_val b0 /\
      data {| id := 1; data := 5000 |} =
        (byte_val b1 + 256 * byte_val b2 + 65536 * byte_val b3
         + 16777216 * byte_val b4)%Z) /\
  (0 <= id {| id := 1; data := 5000 |} <= 255)%Z /\
  (0 <= data {| id := 1; data := 5000 |} <= 4294967295)%Z /\
  (0 <= raw_val {| id := 1; data := 5000 |} <= 4294967295 / 1000)%R.
Proof.
  refine (@decoded_frame_is_little_endian frame1 {| id := 1; data := 5000 |} _).
  reflexivity.
Defined.

End MessageProperties.

Section DrainProperties.

Import InputAdapters Framing Samples MoreSamples.

Lemma dict_get_set_same {V} (d : dict V) (k : Z) (v : V) :
  dict_get (dict_set d k v) k = Some v.
Proof.
  induction d as [|[k' v'] d IH]; cbn.
  - rewrite Z.eqb_refl. reflexivity.
  - destruct (Z.eqb_spec k k') as [->|Hne]; cbn.
    + rewrite Z.eqb_refl. reflexivity.
    + destruct (Z.eqb_spec k k'); [contradiction|]. assumption.
Qed.

Lemma dict_get_set_other {V} (d : dict V) (k k' : Z) (v : V) :
  k <> k' -> dict_get (dict_set d k' v) k = dict_get d k.
Proof.
  intros Hne. induction d as [|[k0 v0] d IH]; cbn.
  - destruct (Z.eqb_spec k k'); [contradiction|reflexivity].
  - destruct (Z.eqb_spec k' k0) as [->|H0]; cbn.
    + destruct (Z.eqb_spec k k0); [contradiction|reflexivity].
    + destruct (Z.eqb_spec k k0); [reflexivity|assumption].
Qed.

Lemma absorb_other (frames : list bytes) :
  forall (r : dict R) (k : Z),
    (forall g m', In g frames -> Message_init g = inr m' -> id m' <> k) ->
    dict_get (absorb frames r) k = dict_get r k.
Proof.
  unfold absorb. induction frames as [|f frames IH]; intros r k H; [reflexivity|].
  cbn [fold_left]. rewrite IH by (intros; eapply H; [right|]; eassumption).
  destruct (Message_init f) as [e|m] eqn:E; [reflexivity|].
  apply dict_get_set_other. intros ->. eapply H; [left; reflexivity|exact E|reflexivity].
Qed.

Lemma absorb_last (pre post : list bytes) (f : bytes) (m : Message) (r : dict R) :
  Message_init f = inr m ->
  (forall g m', In g post -> Message_init g = inr m' -> id m' <> id m) ->
  dict_get (absorb (pre ++ f :: post) r) (id m) = Some (raw_val m).
Proof.
  intros Hf Hpost. unfold absorb. rewrite fold_left_app. cbn [fold_left].
  rewrite Hf. fold (absorb pre r).
  fold (absorb post (dict_set (absorb pre r) (id m) (raw_val m))).
  rewrite absorb_other by assumption. apply dict_get_set_same.
Qed.

(** Draining a run of well-sized frames: every one is decoded into [ranges]
    and the buffer ends up empty. *)
Lemma drain_frames (frames : list bytes) :
  forall (st : loop_state) (fuel : nat),
    well_formed (self_buffer st) ->
    pending (self_buffer st) = frames ->
    Forall (fun s => length s = 5%nat) frames ->
    (length frames < fuel)%nat ->
    exists st',
      drain fuel st = Some (inr tt, st') /\
      size (self_buffer st') = 0%nat /\
      buffer (self_buffer st') = buffer (self_buffer st) /\
      ranges st' = absorb frames (ranges st).
Proof.
  induction frames as [|f frames IH]; intros st fuel Hwf Hpend Hall Hfuel.
  - destruct fuel as [|fuel]; [cbn in Hfuel; lia|].
    assert (Hsz : size (self_buffer st) = 0%nat)
      by (rewrite <- pending_length, Hpend; reflexivity).
    exists st. cbn [drain]. rewrite Hsz. cbn. auto.
  - destruct fuel as [|fuel]; [cbn in Hfuel; lia|].
    assert (Hsz : (0 < size (self_buffer st))%nat)
      by (rewrite <- pending_length, Hpend; cbn; lia).
    destruct (pop_pending Hwf Hsz) as (x & b & Hpop & Hp & Hbuf & _ & Hwf').
    rewrite Hpend in Hp. injection Hp as <- Hrest.
    inversion Hall as [|? ? Hf Hall']; subst.
    destruct (Message_init_frame _ Hf) as (m & Hm).
    cbn [drain]. rewrite (proj2 (Nat.eqb_neq _ _)) by lia.
    rewrite Hpop, Hm.
    destruct (IH {| self_buffer := b;
                    ranges := dict_set (ranges st) (id m) (IZR (data m) / 1000)%R |}
                 fuel) as (st' & Hd & Hs' & Hb' & Hr');
      cbn [self_buffer ranges]; auto; [cbn in Hfuel; lia|].
    exists st'. split; [assumption|]. split; [assumption|].
    split; [cbn [self_buffer] in Hb'; congruence|].
    rewrite Hr'. unfold absorb. cbn [fold_left ranges]. rewrite Hm. reflexivity.
Qed.

(** X8.  Draining a buffer that holds only five-byte frames decodes all of
    them and leaves the buffer empty; for every anchor id the reading kept in
    [ranges] is the one of the last frame with that id, and the entries of
    ids that did not occur are as they were. *)
Theorem drain_keeps_the_last_reading_of_each_anchor (st : loop_state) :
  well_formed (self_buffer st) ->
  Forall (fun s => length s = 5%nat) (pending (self_buffer st)) ->
  exists st',
    drain (S (size (self_buffer st))) st = Some (inr tt, st') /\
    size (self_buffer st') = 0%nat /\
    (forall pre f post m,
        pending (self_buffer st) = pre ++ f :: post ->
        Message_init f = inr m ->
        (forall g m', In g post -> Message_init g = inr m' -> id m' <> id m) ->
        dict_get (ranges st') (id m) = Some (raw_val m)) /\
    (forall k,
        (forall g m', In g (pending (self_buffer st)) ->
                      Message_init g = inr m' -> id m' <> k) ->
        dict_get (ranges st') k = dict_get (ranges st) k).
Proof.
  intros Hwf Hall.
  destruct (@drain_frames (pending (self_buffer st)) st (S (size (self_buffer st))))
    as (st' & Hd & Hs & _ & Hr); auto.
  { rewrite pending_length. lia. }
  exists st'. split; [assumption|]. split; [assumption|]. split.
  - intros pre f post m Hp Hf Hpost. rewrite Hr, Hp. apply absorb_last; assumption.
  - intros k Hk. rewrite Hr. apply absorb_other. assumption.
Qed.

(** When the drain stops at a malformed span, the readings decoded before it
    stay in [ranges]. *)
Lemma drain_until_malformed_ranges (good : list bytes) :
  forall (st : loop_state) (fuel : nat) (bad : bytes) (rest : list bytes),
    well_formed (self_buffer st) ->
    pending (self_buffer st) = good ++ bad :: rest ->
    Forall (fun s => length s = 5%nat) good ->
    length bad <> 5%nat ->
    (length good < fuel)%nat ->
    exists st' e,
      drain fuel st = Some (inl e, st') /\
      ranges st' = absorb good (ranges st).
Proof.
  induction good as [|g good IH]; intros st fuel bad rest Hwf Hpend Hgood Hbad Hfuel.
  - destruct fuel as [|fuel]; [cbn in Hfuel; lia|].
    assert (Hsz : (0 < size (self_buffer st))%nat)
      by (rewrite <- pending_length, Hpend; cbn; lia).
    destruct (pop_pending Hwf Hsz) as (x & b & Hpop & Hp & _).
    rewrite Hpend in Hp. cbn in Hp. injection Hp as <- _.
    cbn [drain]. rewrite (proj2 (Nat.eqb_neq _ _)) by lia.
    rewrite Hpop, (Message_init_malformed _ Hbad).
    eexists _, _. split; reflexivity.
  - destruct fuel as [|fuel]; [cbn in Hfuel; lia|].
    assert (Hsz : (0 < size (self_buffer st))%nat)
      by (rewrite <- pending_length, Hpend; cbn; lia).
    destruct (pop_pending Hwf Hsz) as (x & b & Hpop & Hp & _ & _ & Hwf').
    rewrite Hpend in Hp. cbn in Hp. injection Hp as <- Hrest.
    inversion Hgood as [|? ? Hg Hgood']; subst.
    destruct (Message_init_frame _ Hg) as (m & Hm).
    cbn [drain]. rewrite (proj2 (Nat.eqb_neq _ _)) by lia.
    rewrite Hpop, Hm.
    destruct (IH {| self_buffer := b;
                    ranges := dict_set (ranges st) (id m) (IZR (data m) / 1000)%R |}
                 fuel bad rest) as (st' & e & Hd & Hr');
      cbn [self_buffer]; auto; [cbn in Hfuel; lia|].
    exists st', e. split; [assumption|].
    rewrite Hr'. unfold absorb. cbn [fold_left ranges]. rewrite Hm. reflexivity.
Qed.



(** X23.  A decode failure does not discard what was decoded before it in
    the same pass: when the drain stops at a malformed span, the reading of
    the last well-sized frame of each anchor in front of that span is in
    [ranges] afterwards, although nothing is delivered in that pass. *)
Theorem readings_before_a_malformed_span_are_kept
    (st : loop_state) (pre post rest : list bytes) (f bad : bytes) (m : Message) :
  well_formed (self_buffer st) ->
  pending (self_buffer st) = (pre ++ f :: post) ++ bad :: rest ->
  Forall (fun s => length s = 5%nat) (pre ++ f :: post) ->
  length bad <> 5%nat ->
  Message_init f = inr m ->
  (forall g m', In g post -> Message_init g = inr m' -> id m' <> id m) ->
  exists st' e,
    drain (S (size (self_buffer st))) st = Some (inl e, st') /\
    dict_get (ranges st') (id m) = Some (raw_val m).
Proof.
  intros Hwf Hpend Hgood Hbad Hf Hpost.
  destruct (@drain_until_malformed_ranges (pre ++ f :: post) st
              (S (size (self_buffer st))) bad rest Hwf Hpend Hgood Hbad)
    as (st' & e & Hd & Hr).
  { rewrite <- pending_length, Hpend, (length_app (pre ++ f :: post)). lia. }
  exists st', e. split; [exact Hd|].
  rewrite Hr. apply absorb_last; assumption.
Qed.

Lemma readings_before_a_malformed_span_are_kept_witness :
  exists st' e,
    drain (S (size (self_buffer noisy_state))) noisy_state = Some (inl e, st') /\
    dict_get (ranges st') (id {| id := 1; data := 5000 |})
      = Some (raw_val {| id := 1; data := 5000 |}).
Proof.
  refine (@readings_before_a_malformed_span_are_kept noisy_state [] []
            [frame2; frame3] frame1 fragment {| id := 1; data := 5000 |}
            _ _ _ _ _ _).
  - unfold well_formed. vm_compute. repeat split; lia.
  - vm_compute. reflexivity.
  - repeat constructor.
  - cbn. discriminate.
  - reflexivity.
  - intros g m' [].
Defined.

Lemma clean_state_frames :
  forall g m', In g (pending (self_buffer clean_state)) ->
               Message_init g = inr m' -> id m' <> 7%Z.
Proof.
  intros g m' Hin Hm.
  assert (Hp : pending (self_buffer clean_state) = [frame1; frame2; frame1b])
    by (vm_compute; reflexivity).
  rewrite Hp in Hin.
  destruct Hin as [<-|[<-|[<-|[]]]]; unfold Message_init in Hm; cbn in Hm;
    injection Hm as <-; cbn; discriminate.
Qed.

Lemma drain_keeps_the_last_reading_of_each_anchor_witness :
  exists st',
    drain (S (size (self_buffer clean_state))) clean_state = Some (inr tt, st') /\
    size (self_buffer st') = 0%nat /\
    dict_get (ranges st') 1%Z = Some (raw_val {| id := 1; data := 1000 |}) /\
    dict_get (ranges st') 7%Z = dict_get (ranges clean_state) 7%Z.
Proof.
  destruct (@drain_keeps_the_last_reading_of_each_anchor clean_state)
    as (st' & Hd & Hs & Hlast & Hother).
  - unfold well_formed. vm_compute. repeat split; lia.
  - vm_compute. repeat constructor.
  - exists st'. split; [exact Hd|]. split; [exact Hs|]. split.
    + refine (Hlast [frame1; frame2] frame1b [] {| id := 1; data := 1000 |} _ _ _).
      * vm_compute. reflexivity.
      * reflexivity.
      * intros g m' [].
    + exact (Hother 7%Z clean_state_frames).
Defined.


End DrainProperties.

Section SolverProperties.

Import Core Samples.
Local Open Scope R_scope.

(** X10.  With the anchors at (0,0,0), (L2,0,0) and (0,L3,0) and the exact
    distances of a point (px, py, pz), the closed form returns px and py and
    the height |pz|, negated when [z_sign] is negative. *)
Theorem solve_position_recovers_the_point
    (px py pz L2 L3 eps : R) (z_sign : Z) :
  0 < L2 -> 0 < L3 ->
  solve_position
    (sqrt (px * px + py * py + pz * pz))
    (sqrt ((px - L2) * (px - L2) + py * py + pz * pz))
    (sqrt (px * px + (py - L3) * (py - L3) + pz * pz))
    z_sign eps L2 L3
  = inr (px, py, if (0 <=? z_sign)%Z then Rabs pz else - Rabs pz).
Proof.
  intros H2 H3. unfold solve_position.
  rewrite (proj2 (Rleb_false L2 0)), (proj2 (Rleb_false L3 0)) by lra.
  cbn [orb]. cbv zeta.
  pose proof (Rle_0_sqr px) as Qx. pose proof (Rle_0_sqr py) as Qy.
  pose proof (Rle_0_sqr pz) as Qz. pose proof (Rle_0_sqr (px - L2)) as Qx2.
  pose proof (Rle_0_sqr (py - L3)) as Qy3. unfold Rsqr in Qx, Qy, Qz, Qx2, Qy3.
  rewrite (sqrt_sqrt (px * px + py * py + pz * pz)) by lra.
  rewrite (sqrt_sqrt ((px - L2) * (px - L2) + py * py + pz * pz)) by lra.
  rewrite (sqrt_sqrt (px * px + (py - L3) * (py - L3) + pz * pz)) by lra.
  replace ((L2 * L2 + (px * px + py * py + pz * pz)
            - ((px - L2) * (px - L2) + py * py + pz * pz)) / (2 * L2))
    with px by (field; lra).
  replace ((L3 * L3 + (px * px + py * py + pz * pz)
            - (px * px + (py - L3) * (py - L3) + pz * pz)) / (2 * L3))
    with py by (field; lra).
  replace (px * px + py * py + pz * pz - px * px - py * py) with (Rsqr pz)
    by (unfold Rsqr; ring).
  rewrite (proj2 (Rltb_false (Rsqr pz) 0)) by apply Rle_0_sqr.
  rewrite sqrt_Rsqr_abs.
  destruct (0 <=? z_sign)%Z; do 2 f_equal; ring.
Qed.

Lemma solve_position_recovers_the_point_witness :
  solve_position
    (sqrt (1 * 1 + 1 * 1 + 1 * 1))
    (sqrt ((1 - 3) * (1 - 3) + 1 * 1 + 1 * 1))
    (sqrt (1 * 1 + (1 - 3) * (1 - 3) + 1 * 1))
    1 0 3 3
  = inr (1, 1, if (0 <=? 1)%Z then Rabs 1 else - Rabs 1).
Proof.
  refine (@solve_position_recovers_the_point 1 1 1 3 3 0 1%Z _ _); lra.
Defined.

(** X11.  Whatever [solve_position] returns: L2 and L3 were positive; z is
    not negative for [z_sign >= 0] and not positive for [z_sign < 0]; when
    x^2 + y^2 <= d1^2 the point is at distance |d1|, |d2| and |d3| from the
    three anchors; otherwise z is 0. *)
Theorem solve_position_result_is_consistent
    (d1 d2 d3 eps L2 L3 x y z : R) (z_sign : Z) :
  solve_position d1 d2 d3 z_sign eps L2 L3 = inr (x, y, z) ->
  (0 < L2 /\ 0 < L3) /\
  ((0 <= z_sign)%Z -> 0 <= z) /\
  ((z_sign < 0)%Z -> z <= 0) /\
  (x * x + y * y <= d1 * d1 ->
   x * x + y * y + z * z = d1 * d1 /\
   (x - L2) * (x - L2) + y * y + z * z = d2 * d2 /\
   x * x + (y - L3) * (y - L3) + z * z = d3 * d3) /\
  (d1 * d1 < x * x + y * y -> z = 0).
Proof.
  unfold solve_position. intros H.
  destruct (Rleb L2 0) eqn:E2; [discriminate|].
  destruct (Rleb L3 0) eqn:E3; [discriminate|].
  apply Rleb_false in E2. apply Rleb_false in E3. cbn [orb] in H.
  injection H as Hx Hy Hz.
  assert (Hx2 : 2 * L2 * x = L2 * L2 + d1 * d1 - d2 * d2)
    by (rewrite <- Hx; field; lra).
  assert (Hy2 : 2 * L3 * y = L3 * L3 + d1 * d1 - d3 * d3)
    by (rewrite <- Hy; field; lra).
  rewrite Hx, Hy in Hz. clear Hx Hy.
  split; [split; assumption|].
  set (z2 := d1 * d1 - x * x - y * y) in *.
  pose proof (sqrt_pos (if Rltb z2 0 then 0 else z2)) as Hs.
  split; [|split; [|split]].
  - intros Hsign. rewrite (proj2 (Z.leb_le _ _) Hsign) in Hz. lra.
  - intros Hsign. rewrite (proj2 (Z.leb_gt _ _) Hsign) in Hz. lra.
  - intros Hok.
    rewrite (proj2 (Rltb_false z2 0)) in Hz by (unfold z2; lra).
    assert (Hzz : z * z = z2).
    { rewrite <- Hz. destruct (0 <=? z_sign)%Z.
      - replace (sqrt z2 * 1 * (sqrt z2 * 1)) with (sqrt z2 * sqrt z2) by ring.
        apply sqrt_sqrt. unfold z2. lra.
      - replace (sqrt z2 * -1 * (sqrt z2 * -1)) with (sqrt z2 * sqrt z2) by ring.
        apply sqrt_sqrt. unfold z2. lra. }
    unfold z2 in Hzz. repeat split; nra.
  - intros Hneg.
    rewrite (proj2 (Rltb_true z2 0)) in Hz by (unfold z2; lra).
    rewrite sqrt_0 in Hz. lra.
Qed.

Lemma solve_position_result_is_consistent_witness :
  (0 < 3 /\ 0 < 3) /\
  ((0 <= 1)%Z -> 0 <= sqrt 1 * 1) /\
  ((1 < 0)%Z -> sqrt 1 * 1 <= 0) /\
  (1 * 1 + 1 * 1 <= 3 ->
   1 * 1 + 1 * 1 + sqrt 1 * 1 * (sqrt 1 * 1) = 3 /\
   (1 - 3) * (1 - 3) + 1 * 1 + sqrt 1 * 1 * (sqrt 1 * 1) = 6 /\
   1 * 1 + (1 - 3) * (1 - 3) + sqrt 1 * 1 * (sqrt 1 * 1) = 6) /\
  (3 < 1 * 1 + 1 * 1 -> sqrt 1 * 1 = 0).
Proof.
  pose proof (@solve_position_result_is_consistent
                (sqrt 3) (sqrt 6) (sqrt 6) 0 3 3 1 1 (sqrt 1 * 1) 1%Z) as H.
  rewrite !sqrt_sqrt in H by lra. apply H.
  unfold solve_position. decide_reals. cbn [orb]. cbv zeta.
  rewrite !sqrt_sqrt by lra.
  replace ((3 * 3 + 3 - 6) / (2 * 3)) with 1 by field.
  replace (3 - 1 * 1 - 1 * 1) with 1 by ring.
  decide_reals. reflexivity.
Defined.

End SolverProperties.

Section EngineProperties.

Import Core Samples.
Local Open Scope R_scope.

Variable lx : list (Z * position) -> list (Z * R) -> result position.

(** What [multilateration] does once its three checks have passed: the
    lookups cannot fail, and the external solve receives the known anchors
    that have a sample, with those samples. *)
Lemma multilateration_call (raw_data : dict (option R)) (anchors : dict position)
    (zs : Z) :
  (3 <= length (non_zero_data raw_data))%nat ->
  (3 <= length anchors)%nat ->
  (3 <= length (matched_ids (non_zero_data raw_data) anchors))%nat ->
  exists placed measures,
    multilateration lx raw_data anchors zs =
      rbind (lx placed measures) (fun loc => inr (force_z_sign zs loc)) /\
    map fst placed = matched_ids (non_zero_data raw_data) anchors /\
    map fst measures = matched_ids (non_zero_data raw_data) anchors /\
    (forall k p, In (k, p) placed -> dict_get anchors k = Some p) /\
    (forall k d, In (k, d) measures -> dict_get (non_zero_data raw_data) k = Some d).
Proof.
  intros H1 H2 H3. unfold multilateration.
  rewrite (proj2 (Nat.ltb_ge _ _) H1), (proj2 (Nat.ltb_ge _ _) H2),
    (proj2 (Nat.ltb_ge _ _) H3).
  set (nz := non_zero_data raw_data) in *.
  set (matched := matched_ids nz anchors) in *.
  destruct (rmap_all_ok
              (fun i => rbind (dict_item anchors i) (fun p => inr (i, p))) matched)
    as (placed & Hplaced & HFp).
  { intros i Hi. apply filter_In in Hi as [_ Hmem].
    unfold dict_mem in Hmem. unfold dict_item.
    destruct (dict_get anchors i); [cbn; eauto|discriminate]. }
  destruct (rmap_all_ok
              (fun i => rbind (dict_item nz i) (fun d => inr (i, d))) matched)
    as (measures & Hmeasures & HFm).
  { intros i Hi. apply filter_In in Hi as [Hkey _].
    destruct (@dict_get_key _ nz i Hkey) as (d & Hd).
    unfold dict_item. rewrite Hd. cbn. eauto. }
  exists placed, measures. rewrite Hplaced, Hmeasures. cbn [rbind].
  split; [reflexivity|].
  assert (Hshape : forall V (d : dict V) (l : list Z) (out : list (Z * V)),
             Forall2 (fun i m => rbind (dict_item d i) (fun v => inr (i, v)) = inr m)
               l out ->
             map fst out = l /\ forall k v, In (k, v) out -> dict_get d k = Some v).
  { intros V d l out HF. induction HF as [|i m l out Him _ [IH1 IH2]].
    - split; [reflexivity|]. intros k v [].
    - unfold dict_item in Him. destruct (dict_get d i) as [v0|] eqn:E;
        cbn in Him; [|discriminate]. injection Him as <-.
      split; [cbn; rewrite IH1; reflexivity|].
      intros k v [Hin|Hin]; [injection Hin as <- <-; assumption|auto]. }
  destruct (Hshape _ anchors matched placed HFp) as [Hp1 Hp2].
  destruct (Hshape _ nz matched measures HFm) as [Hm1 Hm2].
  auto.
Qed.

Lemma non_zero_data_In (raw_data : dict (option R)) (k : Z) (d : R) :
  NoDup (keys raw_data) ->
  (In (k, d) (non_zero_data raw_data) <-> In (k, Some d) raw_data).
Proof.
  intros Hnd. unfold non_zero_data.
  rewrite dict_collect_comprehension by assumption.
  rewrite dict_comprehension_In. split.
  - intros (v & Hv & ->). assumption.
  - intros H. eauto.
Qed.

Lemma non_zero_data_NoDup (raw_data : dict (option R)) :
  NoDup (keys raw_data) -> NoDup (keys (non_zero_data raw_data)).
Proof.
  intros Hnd. unfold non_zero_data.
  rewrite dict_collect_comprehension by assumption.
  apply dict_comprehension_NoDup. assumption.
Qed.

Lemma In_keys {V} (d : dict V) (k : Z) (v : V) : In (k, v) d -> In k (keys d).
Proof. intros H. change k with (fst (k, v)). apply in_map. assumption. Qed.

Lemma dict_mem_In {V} (d : dict V) (k : Z) (v : V) :
  In (k, v) d -> dict_mem d k = true.
Proof.
  intros H. unfold dict_mem.
  destruct (@dict_get_key _ d k (@In_keys _ d k v H)) as (v' & ->). reflexivity.
Qed.

(** X12.  Once its three checks have passed, [multilateration] hands the
    external solve exactly the samples of anchors whose position is known,
    and exactly the positions of anchors that have a sample, on the same ids
    in the same order, at least three of them and none twice; the result is
    the solved location with the z-sign rule applied. *)
Theorem multilateration_solves_on_known_samples
    (raw_data : dict (option R)) (anchors : dict position) (zs : Z) :
  NoDup (keys raw_data) ->
  NoDup (keys anchors) ->
  (3 <= length (non_zero_data raw_data))%nat ->
  (3 <= length anchors)%nat ->
  (3 <= length (matched_ids (non_zero_data raw_data) anchors))%nat ->
  exists placed measures,
    multilateration lx raw_data anchors zs =
      rbind (lx placed measures) (fun loc => inr (force_z_sign zs loc)) /\
    map fst placed = map fst measures /\
    (3 <= length measures)%nat /\
    NoDup (map fst measures) /\
    (forall k d, In (k, d) measures <->
                 In (k, Some d) raw_data /\ dict_mem anchors k = true) /\
    (forall k p, In (k, p) placed <->
                 In (k, p) anchors /\ exists d, In (k, Some d) raw_data).
Proof.
  intros Hnd Hnda H1 H2 H3.
  destruct (@multilateration_call raw_data anchors zs H1 H2 H3)
    as (placed & measures & E & Hp1 & Hm1 & Hp2 & Hm2).
  pose proof (@non_zero_data_NoDup raw_data Hnd) as Hndz.
  set (nz := non_zero_data raw_data) in *.
  set (matched := matched_ids nz anchors) in *.
  assert (Hmatched : forall k, In k matched <->
                               In k (keys nz) /\ dict_mem anchors k = true).
  { intros k. unfold matched, matched_ids. apply filter_In. }
  exists placed, measures. split; [assumption|]. split; [congruence|].
  split; [rewrite <- (length_map fst measures), Hm1; assumption|].
  split; [rewrite Hm1; unfold matched, matched_ids; apply NoDup_filter; assumption|].
  split.
  - intros k d. split.
    + intros Hin. pose proof (Hm2 _ _ Hin) as Hget.
      apply dict_get_Some_In in Hget.
      split; [apply (@non_zero_data_In raw_data k d Hnd); assumption|].
      apply (Hmatched k). rewrite <- Hm1. apply (@In_keys _ measures k d Hin).
    + intros [Hraw Hmem]. apply (@non_zero_data_In raw_data k d Hnd) in Hraw.
      assert (Hk : In k (map fst measures)).
      { rewrite Hm1. apply Hmatched. split; [exact (@In_keys _ nz k d Hraw)|assumption]. }
      apply in_map_iff in Hk as ([k' d'] & Hfst & Hin). cbn in Hfst. subst k'.
      pose proof (Hm2 _ _ Hin) as Hget.
      rewrite (@dict_get_In _ nz k d Hndz Hraw) in Hget. injection Hget as ->.
      assumption.
  - intros k p. split.
    + intros Hin. pose proof (Hp2 _ _ Hin) as Hget.
      split; [apply dict_get_Some_In; assumption|].
      assert (Hk : In k matched) by (rewrite <- Hp1; apply (@In_keys _ placed k p Hin)).
      apply Hmatched in Hk as [Hk _].
      destruct (@dict_get_key _ nz k Hk) as (d & Hd).
      exists d. apply (@non_zero_data_In raw_data k d Hnd). apply dict_get_Some_In. assumption.
    + intros [Hin (d & Hd)]. apply (@non_zero_data_In raw_data k d Hnd) in Hd.
      assert (Hk : In k (map fst placed)).
      { rewrite Hp1. apply Hmatched.
        split; [exact (@In_keys _ nz k d Hd)|exact (@dict_mem_In _ anchors k p Hin)]. }
      apply in_map_iff in Hk as ([k' p'] & Hfst & Hin'). cbn in Hfst. subst k'.
      pose proof (Hp2 _ _ Hin') as Hget.
      rewrite (@dict_get_In _ anchors k p Hnda Hin) in Hget. injection Hget as ->.
      assumption.
Qed.

(** X13.  The only ways [multilateration] can fail: too few samples; else
    too few anchor positions; else too few common anchors; else an exception
    of the external solve, called on at least three anchors and three
    measures.  Its own dictionary lookups never raise. *)
Theorem multilateration_failures
    (raw_data : dict (option R)) (anchors : dict position) (zs : Z) (e : exn) :
  multilateration lx raw_data anchors zs = inl e ->
  (e = ValueError "Not enough data for trilateration" /\
   (length (non_zero_data raw_data) < 3)%nat) \/
  (e = ValueError "Not enough anchor positions for trilateration" /\
   (3 <= length (non_zero_data raw_data))%nat /\ (length anchors < 3)%nat) \/
  (e = ValueError "Not enough common anchors for trilateration" /\
   (3 <= length (non_zero_data raw_data))%nat /\ (3 <= length anchors)%nat /\
   (length (matched_ids (non_zero_data raw_data) anchors) < 3)%nat) \/
  (exists placed measures,
      lx placed measures = inl e /\ (3 <= length measures)%nat /\
      (3 <= length placed)%nat).
Proof.
  intros H.
  destruct (Nat.ltb_spec (length (non_zero_data raw_data)) 3) as [H1|H1].
  { left. unfold multilateration in H.
    rewrite (proj2 (Nat.ltb_lt _ _) H1) in H. injection H as <-. auto. }
  destruct (Nat.ltb_spec (length anchors) 3) as [H2|H2].
  { right. left. unfold multilateration in H.
    rewrite (proj2 (Nat.ltb_ge _ _) H1), (proj2 (Nat.ltb_lt _ _) H2) in H.
    injection H as <-. auto. }
  destruct (Nat.ltb_spec (length (matched_ids (non_zero_data raw_data) anchors)) 3)
    as [H3|H3].
  { right. right. left. unfold multilateration in H.
    rewrite (proj2 (Nat.ltb_ge _ _) H1), (proj2 (Nat.ltb_ge _ _) H2),
      (proj2 (Nat.ltb_lt _ _) H3) in H.
    injection H as <-. auto. }
  right. right. right.
  destruct (@multilateration_call raw_data anchors zs H1 H2 H3)
    as (placed & measures & E & Hp1 & Hm1 & _).
  exists placed, measures. rewrite E in H.
  destruct (lx placed measures) as [e'|loc]; cbn in H; [|discriminate].
  injection H as <-. split; [reflexivity|].
  rewrite <- (length_map fst measures), <- (length_map fst placed), Hp1, Hm1. auto.
Qed.

Lemma present_keys (d : dict R) : keys (present d) = keys d.
Proof. unfold keys, present. rewrite map_map. reflexivity. Qed.

Lemma valid_distances_comprehension (self : LocalizationEngine)
    (distances : dict (option R)) :
  NoDup (keys distances) ->
  valid_distances self distances =
    dict_comprehension
      (fun _ distance =>
         match distance with
         | Some d => if validate_range self d then Some d else None
         | None => None
         end) distances.
Proof. intros H. unfold valid_distances. apply dict_collect_comprehension. assumption. Qed.

Lemma valid_distances_NoDup (self : LocalizationEngine)
    (distances : dict (option R)) :
  NoDup (keys distances) -> NoDup (keys (valid_distances self distances)).
Proof.
  intros H. rewrite valid_distances_comprehension by assumption.
  apply dict_comprehension_NoDup. assumption.
Qed.

(** Filtering what has been filtered changes nothing. *)
Lemma valid_distances_idempotent (self : LocalizationEngine)
    (distances : dict (option R)) :
  NoDup (keys distances) ->
  valid_distances self (present (valid_distances self distances))
  = valid_distances self distances.
Proof.
  intros Hnd.
  rewrite (@valid_distances_comprehension self
             (present (valid_distances self distances)))
    by (rewrite present_keys; apply valid_distances_NoDup; assumption).
  rewrite (@valid_distances_comprehension self distances Hnd).
  clear Hnd. induction distances as [|[k [d|]] ds IH]; [reflexivity| |exact IH].
  unfold dict_comprehension in *. cbn [flat_map fst snd].
  destruct (validate_range self d) eqn:E; [|exact IH].
  cbn [app present map fst snd flat_map]. rewrite E. cbn [app].
  f_equal. exact IH.
Qed.

Lemma calculate_position_depends_on_valid (self : LocalizationEngine)
    (ds ds' : dict (option R)) :
  valid_distances self ds = valid_distances self ds' ->
  calculate_position lx self ds = calculate_position lx self ds'.
Proof. intros H. unfold calculate_position. rewrite H. reflexivity. Qed.

(** X15.  Filtering twice is filtering once: the valid distances of a
    cycle, filtered again, are unchanged, so [calculate_position] gives the
    same result on a cycle and on its valid part. *)
Theorem filtering_twice_is_filtering_once (self : LocalizationEngine)
    (distances : dict (option R)) :
  NoDup (keys distances) ->
  valid_distances self (present (valid_distances self distances))
    = valid_distances self distances /\
  calculate_position lx self (present (valid_distances self distances))
    = calculate_position lx self distances.
Proof.
  intros Hnd. split; [apply valid_distances_idempotent; assumption|].
  apply calculate_position_depends_on_valid.
  apply valid_distances_idempotent. assumption.
Qed.

Lemma calibrated_distances_fold (engine : LocalizationEngine) (c : R -> R)
    (readings : dict R) :
  forall acc : dict R,
    (forall k r, In (k, r) readings -> calibrate engine r = inr (c r)) ->
    calibrated_distances engine readings acc =
      inr (fold_left
             (fun out kv =>
                match
                  match snd kv with
                  | Some d => if validate_range engine d then Some d else None
                  | None => None
                  end
                with
                | Some w => dict_set out (fst kv) w
                | None => out
                end)
             (present (map (fun kv => (fst kv, c (snd kv))) readings)) acc).
Proof.
  induction readings as [|[k r] rs IH]; intros acc Hc; [reflexivity|].
  cbn [calibrated_distances]. rewrite (Hc k r) by (left; reflexivity).
  cbn [rbind map present fold_left fst snd].
  rewrite IH by (intros k' r' Hin; apply (Hc k' r'); right; assumption).
  destruct (validate_range engine (c r)); reflexivity.
Qed.

(** X16.  When [calibrate] succeeds on every reading, what
    [_on_distance_update] computes is [calculate_position] of the calibrated
    cycle: the range filter of the caller and the one inside
    [calculate_position] do not interfere. *)
Theorem on_distance_update_is_calibrate_then_locate
    (engine : LocalizationEngine) (c : R -> R) (readings : dict R) :
  NoDup (keys readings) ->
  (forall k r, In (k, r) readings -> calibrate engine r = inr (c r)) ->
  _on_distance_update lx engine readings =
    calculate_position lx engine
      (present (map (fun kv => (fst kv, c (snd kv))) readings)).
Proof.
  intros Hnd Hc. unfold _on_distance_update.
  rewrite (@calibrated_distances_fold engine c readings [] Hc). cbn [rbind].
  set (cal := present (map (fun kv => (fst kv, c (snd kv))) readings)).
  change (fold_left _ cal []) with (valid_distances engine cal).
  apply calculate_position_depends_on_valid.
  apply valid_distances_idempotent.
  unfold cal. rewrite present_keys. unfold keys. rewrite map_map. cbn [fst].
  exact Hnd.
Qed.

Lemma dict_collect_nothing {V W} (f : Z -> V -> option W) (d : dict V) :
  (forall k v, In (k, v) d -> f k v = None) -> dict_collect f d = [].
Proof.
  unfold dict_collect. intros H.
  assert (Hfold : forall out : dict W,
             fold_left
               (fun out kv =>
                  match f (fst kv) (snd kv) with
                  | Some w => dict_set out (fst kv) w
                  | None => out
                  end) d out = out).
  { induction d as [|[k v] d IH]; intros out; [reflexivity|].
    cbn [fold_left fst snd]. rewrite (H k v) by (left; reflexivity).
    apply IH. intros k' v' Hin. apply H. right. assumption. }
  apply Hfold.
Qed.

(** X17.  An engine whose [max_range] is below its [min_range] accepts no
    distance at all and returns [None] for every cycle. *)
Theorem empty_range_never_gives_a_fix (self : LocalizationEngine)
    (distances : dict (option R)) :
  max_range self < min_range self ->
  (forall d, validate_range self d = false) /\
  valid_distances self distances = [] /\
  calculate_position lx self distances = inr None.
Proof.
  intros Hempty.
  assert (Hv : forall d, validate_range self d = false).
  { intros d. unfold validate_range.
    destruct (Rleb (min_range self) d) eqn:E1; [|reflexivity].
    apply Rleb_true in E1. cbn [andb]. apply Rleb_false. lra. }
  assert (Hnone : valid_distances self distances = []).
  { unfold valid_distances. apply dict_collect_nothing.
    intros k [d|] _; [rewrite Hv|]; reflexivity. }
  split; [exact Hv|]. split; [exact Hnone|].
  unfold calculate_position. rewrite Hnone. reflexivity.
Qed.

(** X18.  A fix is always computed from valid data: when
    [calculate_position] returns a position, the external solve was called
    on at least three measures with distinct ids, each of them an entry of
    the cycle that lies within [min_range, max_range] and belongs to an
    anchor with a known position, and the position is its result with the
    z-sign rule applied. *)
Theorem a_fix_comes_from_valid_known_samples (self : LocalizationEngine)
    (distances : dict (option R)) (p : position) :
  NoDup (keys distances) ->
  calculate_position lx self distances = inr (Some p) ->
  exists placed measures loc,
    lx placed measures = inr loc /\
    p = force_z_sign (z_sign self) loc /\
    (3 <= length measures)%nat /\
    map fst placed = map fst measures /\
    NoDup (map fst measures) /\
    (forall k d, In (k, d) measures ->
                 In (k, Some d) distances /\
                 min_range self <= d <= max_range self /\
                 dict_mem (anchor_positions self) k = true) /\
    (forall k q, In (k, q) placed -> In (k, q) (anchor_positions self)).
Proof.
  intros Hnd H. unfold calculate_position in H.
  set (valid := valid_distances self distances) in *.
  destruct (Nat.ltb_spec (length valid) 3) as [Hlt|Hge]; [discriminate|].
  destruct (multilateration lx (present valid) (anchor_positions self) (z_sign self))
    as [e|q] eqn:E; [destruct e; discriminate|].
  injection H as <-.
  assert (Hndv : NoDup (keys (present valid)))
    by (rewrite present_keys; apply valid_distances_NoDup; assumption).
  destruct (Nat.ltb_spec (length (non_zero_data (present valid))) 3) as [H1|H1].
  { unfold multilateration in E. rewrite (proj2 (Nat.ltb_lt _ _) H1) in E. discriminate. }
  destruct (Nat.ltb_spec (length (anchor_positions self)) 3) as [H2|H2].
  { unfold multilateration in E.
    rewrite (proj2 (Nat.ltb_ge _ _) H1), (proj2 (Nat.ltb_lt _ _) H2) in E. discriminate. }
  destruct (Nat.ltb_spec
              (length (matched_ids (non_zero_data (present valid)) (anchor_positions self))) 3)
    as [H3|H3].
  { unfold multilateration in E.
    rewrite (proj2 (Nat.ltb_ge _ _) H1), (proj2 (Nat.ltb_ge _ _) H2),
      (proj2 (Nat.ltb_lt _ _) H3) in E. discriminate. }
  destruct (@multilateration_call (present valid) (anchor_positions self) (z_sign self)
              H1 H2 H3) as (placed & measures & Ecall & Hp1 & Hm1 & Hp2 & Hm2).
  rewrite Ecall in E. destruct (lx placed measures) as [e|loc] eqn:El; [discriminate|].
  cbn in E. injection E as <-.
  exists placed, measures, loc. split; [exact El|]. split; [reflexivity|].
  split; [rewrite <- (length_map fst measures), Hm1; assumption|].
  split; [congruence|].
  split.
  { rewrite Hm1. unfold matched_ids. apply NoDup_filter.
    apply non_zero_data_NoDup. assumption. }
  split.
  - intros k d Hin.
    pose proof (Hm2 _ _ Hin) as Hget. apply dict_get_Some_In in Hget.
    apply (@non_zero_data_In (present valid) k d Hndv) in Hget.
    unfold present in Hget. apply in_map_iff in Hget as ([k' d'] & Heq & Hv).
    cbn in Heq. injection Heq as -> ->.
    apply (@valid_distances_spec self distances k d Hnd) in Hv as [Hd Hr].
    split; [assumption|]. split; [assumption|].
    assert (Hk : In k (map fst measures)) by (apply (@In_keys _ measures k d Hin)).
    rewrite Hm1 in Hk. unfold matched_ids in Hk. apply filter_In in Hk as [_ Hk].
    assumption.
  - intros k q Hin. apply dict_get_Some_In. apply Hp2. assumption.
Qed.

(** X19.  With a calibration type whose parameter count is wrong, every
    non-empty cycle makes [_on_distance_update] raise the [ValueError] of
    [calibrate] before any position is computed; an empty cycle gives
    [None]. *)
Theorem misconfigured_calibration_raises_on_every_cycle
    (engine : LocalizationEngine) (readings : dict R) :
  (calibration_type engine = "linear"%string /\
     length (calibration_params engine) <> 2%nat) \/
  (calibration_type engine = "quadratic"%string /\
     length (calibration_params engine) <> 3%nat) \/
  (calibration_type engine = "cubic"%string /\
     length (calibration_params engine) <> 4%nat) ->
  (readings <> [] ->
   exists msg, _on_distance_update lx engine readings = inl (ValueError msg)) /\
  _on_distance_update lx engine [] = inr None.
Proof.
  intros Hbad. split.
  - intros Hne. destruct readings as [|[k r] rs]; [contradiction|].
    unfold _on_distance_update. cbn [calibrated_distances].
    assert (Hc : exists msg, calibrate engine r = inl (ValueError msg)).
    { unfold calibrate. destruct Hbad as [[-> H]|[[-> H]|[-> H]]].
      - rewrite String.eqb_refl. rewrite (proj2 (Nat.eqb_neq _ _) H). cbn. eauto.
      - change (String.eqb "quadratic" "linear") with false. cbv iota.
        rewrite String.eqb_refl. rewrite (proj2 (Nat.eqb_neq _ _) H). cbn. eauto.
      - change (String.eqb "cubic" "linear") with false.
        change (String.eqb "cubic" "quadratic") with false. cbv iota.
        rewrite String.eqb_refl. rewrite (proj2 (Nat.eqb_neq _ _) H). cbn. eauto. }
    destruct Hc as (msg & ->). exists msg. reflexivity.
  - reflexivity.
Qed.

End EngineProperties.

Section EngineInstances.

Import Core Samples MoreSamples.
Local Open Scope R_scope.

Lemma three_keys : NoDup [1%Z; 2%Z; 3%Z].
Proof. repeat constructor; cbn; intuition discriminate. Qed.

Lemma multilateration_solves_on_known_samples_witness :
  exists placed measures,
    multilateration lx_origin unit_cycle standard_anchors 0 =
      rbind (lx_origin placed measures) (fun loc => inr (force_z_sign 0 loc)) /\
    map fst placed = map fst measures /\
    (3 <= length measures)%nat /\
    NoDup (map fst measures) /\
    (forall k d, In (k, d) measures <->
                 In (k, Some d) unit_cycle /\ dict_mem standard_anchors k = true) /\
    (forall k p, In (k, p) placed <->
                 In (k, p) standard_anchors /\ exists d, In (k, Some d) unit_cycle).
Proof.
  refine (@multilateration_solves_on_known_samples lx_origin unit_cycle
            standard_anchors 0 _ _ _ _ _).
  - exact three_keys.
  - exact three_keys.
  - cbn. lia.
  - cbn. lia.
  - cbn. lia.
Defined.

Lemma multilateration_failures_witness :
  (ValueError "Not enough data for trilateration"
     = ValueError "Not enough data for trilateration" /\
   (length (non_zero_data two_samples) < 3)%nat) \/
  (ValueError "Not enough data for trilateration"
     = ValueError "Not enough anchor positions for trilateration" /\
   (3 <= length (non_zero_data two_samples))%nat /\ (length two_anchors < 3)%nat) \/
  (ValueError "Not enough data for trilateration"
     = ValueError "Not enough common anchors for trilateration" /\
   (3 <= length (non_zero_data two_samples))%nat /\ (3 <= length two_anchors)%nat /\
   (length (matched_ids (non_zero_data two_samples) two_anchors) < 3)%nat) \/
  (exists placed measures,
      lx_origin placed measures = inl (ValueError "Not enough data for trilateration") /\
      (3 <= length measures)%nat /\ (3 <= length placed)%nat).
Proof.
  refine (@multilateration_failures lx_origin two_samples two_anchors 0
            (ValueError "Not enough data for trilateration") _).
  reflexivity.
Defined.

Lemma filtering_twice_is_filtering_once_witness :
  valid_distances standard_engine
    (present (valid_distances standard_engine out_of_range_cycle))
    = valid_distances standard_engine out_of_range_cycle /\
  calculate_position lx_origin standard_engine
    (present (valid_distances standard_engine out_of_range_cycle))
    = calculate_position lx_origin standard_engine out_of_range_cycle.
Proof.
  refine (@filtering_twice_is_filtering_once lx_origin standard_engine
            out_of_range_cycle _).
  exact three_keys.
Defined.

Lemma on_distance_update_is_calibrate_then_locate_witness :
  _on_distance_update lx_origin standard_engine out_of_range_readings =
    calculate_position lx_origin standard_engine
      (present (map (fun kv => (fst kv, (fun r : R => r) (snd kv)))
                  out_of_range_readings)).
Proof.
  refine (@on_distance_update_is_calibrate_then_locate lx_origin standard_engine
            (fun r => r) out_of_range_readings _ _).
  - exact three_keys.
  - intros k r _. reflexivity.
Defined.

Lemma empty_range_never_gives_a_fix_witness :
  (forall d, validate_range inverted_engine d = false) /\
  valid_distances inverted_engine unit_cycle = [] /\
  calculate_position lx_origin inverted_engine unit_cycle = inr None.
Proof.
  refine (@empty_range_never_gives_a_fix lx_origin inverted_engine unit_cycle _).
  cbn. lra.
Defined.

Lemma unit_cycle_fix :
  calculate_position lx_origin standard_engine unit_cycle = inr (Some (0, 0, 0)).
Proof.
  unfold calculate_position. rewrite unit_cycle_valid. reflexivity.
Qed.

Lemma a_fix_comes_from_valid_known_samples_witness :
  exists placed measures loc,
    lx_origin placed measures = inr loc /\
    (0, 0, 0) = force_z_sign (z_sign standard_engine) loc /\
    (3 <= length measures)%nat /\
    map fst placed = map fst measures /\
    NoDup (map fst measures) /\
    (forall k d, In (k, d) measures ->
                 In (k, Some d) unit_cycle /\
                 min_range standard_engine <= d <= max_range standard_engine /\
                 dict_mem (anchor_positions standard_engine) k = true) /\
    (forall k q, In (k, q) placed -> In (k, q) (anchor_positions standard_engine)).
Proof.
  refine (@a_fix_comes_from_valid_known_samples lx_origin standard_engine
            unit_cycle (0, 0, 0) _ _).
  - exact three_keys.
  - exact unit_cycle_fix.
Defined.

Lemma misconfigured_calibration_raises_on_every_cycle_witness :
  (out_of_range_readings <> [] ->
   exists msg,
     _on_distance_update lx_origin short_linear_engine out_of_range_readings
     = inl (ValueError msg)) /\
  _on_distance_update lx_origin short_linear_engine [] = inr None.
Proof.
  refine (@misconfigured_calibration_raises_on_every_cycle lx_origin
            short_linear_engine out_of_range_readings _).
  left. split; [reflexivity|]. cbn. discriminate.
Defined.

(** X14.  [multilateration] applies [abs(z) * z_sign] to the solved height:
    x and y are never touched; with [z_sign = 0] the height is returned as
    solved; otherwise its sign is that of [z_sign] and its magnitude is
    multiplied by the magnitude of [z_sign], so only +1 and -1 keep it. *)
Theorem z_sign_forces_and_scales_the_height (zs : Z) (x y z : R) :
  fst (fst (force_z_sign zs (x, y, z))) = x /\
  snd (fst (force_z_sign zs (x, y, z))) = y /\
  (zs = 0%Z -> snd (force_z_sign zs (x, y, z)) = z) /\
  (zs <> 0%Z ->
   Rabs (snd (force_z_sign zs (x, y, z))) = Rabs z * IZR (Z.abs zs)) /\
  ((0 < zs)%Z -> 0 <= snd (force_z_sign zs (x, y, z))) /\
  ((zs < 0)%Z -> snd (force_z_sign zs (x, y, z)) <= 0).
Proof.
  unfold force_z_sign. cbn [fst snd].
  split; [reflexivity|]. split; [reflexivity|].
  pose proof (Rabs_pos z) as Hz.
  destruct (Z.eqb_spec zs 0) as [->|Hne].
  - split; [reflexivity|]. split; [contradiction|]. split; lia.
  - split; [contradiction|]. split; [|split].
    + intros _. rewrite Rabs_mult, Rabs_Rabsolu, <- abs_IZR. reflexivity.
    + intros Hpos. apply IZR_lt in Hpos. nra.
    + intros Hneg. apply IZR_lt in Hneg. nra.
Qed.

Lemma z_sign_forces_and_scales_the_height_witness :
  (Rabs (snd (force_z_sign 2 (1, 1, -3))) = Rabs (-3) * IZR (Z.abs 2)) /\
  (0 <= snd (force_z_sign 2 (1, 1, -3))) /\
  (snd (force_z_sign 0 (1, 1, -3)) = -3) /\
  (snd (force_z_sign (-1) (1, 1, 3)) <= 0).
Proof.
  split; [|split; [|split]].
  - refine (proj1 (proj2 (proj2 (proj2
      (@z_sign_forces_and_scales_the_height 2 1 1 (-3))))) _). discriminate.
  - refine (proj1 (proj2 (proj2 (proj2 (proj2
      (@z_sign_forces_and_scales_the_height 2 1 1 (-3)))))) _). lia.
  - refine (proj1 (proj2 (proj2
      (@z_sign_forces_and_scales_the_height 0 1 1 (-3)))) _). reflexivity.
  - refine (proj2 (proj2 (proj2 (proj2 (proj2
      (@z_sign_forces_and_scales_the_height (-1) 1 1 3))))) _). lia.
Defined.

(** X24.  The calibration polynomials nest: 'linear' with [1, 0] returns
    the raw distance, a 'quadratic' engine with leading coefficient 0 agrees
    with the 'linear' one on the remaining parameters, a 'cubic' one with
    leading coefficient 0 with the 'quadratic' one, and 'cubic' with
    [a, b, c, d] is ((a r + b) r + c) r + d. *)
Theorem calibration_polynomials_nest
    (anchors : dict position) (zs : Z) (mn mx raw a b c d : R) :
  calibrate (mkLocalizationEngine anchors "linear" [1; 0] zs mn mx) raw = inr raw /\
  calibrate (mkLocalizationEngine anchors "quadratic" [0; a; b] zs mn mx) raw =
    calibrate (mkLocalizationEngine anchors "linear" [a; b] zs mn mx) raw /\
  calibrate (mkLocalizationEngine anchors "cubic" [0; a; b; c] zs mn mx) raw =
    calibrate (mkLocalizationEngine anchors "quadratic" [a; b; c] zs mn mx) raw /\
  calibrate (mkLocalizationEngine anchors "cubic" [a; b; c; d] zs mn mx) raw =
    inr (((a * raw + b) * raw + c) * raw + d).
Proof.
  unfold calibrate, calibrated_linear, calibrated_quadratic, calibrated_cubic.
  cbn [calibration_type calibration_params length Nat.eqb negb nth].
  change (String.eqb "linear" "linear") with true.
  change (String.eqb "quadratic" "linear") with false.
  change (String.eqb "quadratic" "quadratic") with true.
  change (String.eqb "cubic" "linear") with false.
  change (String.eqb "cubic" "quadratic") with false.
  change (String.eqb "cubic" "cubic") with true.
  cbv iota.
  repeat split; f_equal; ring.
Qed.

End EngineInstances.

Section MainProperties.

Import Core Main Samples MoreSamples.
Local Open Scope R_scope.

Lemma skipn_tl {A} (n : nat) (l : list A) : skipn (S n) l = skipn n (tl l).
Proof. destruct l; [destruct n; reflexivity|reflexivity]. Qed.

Lemma replay_history (events : list (R * option position)) :
  forall self,
    (length (position_history self) <= 1000)%nat ->
    position_history (replay self events) =
      skipn (length (position_history self ++ fixes_of events) - 1000)
            (position_history self ++ fixes_of events).
Proof.
  unfold replay.
  induction events as [|[t [p|]] events IH]; intros self Hlen.
  - cbn [fold_left fixes_of flat_map]. rewrite app_nil_r.
    replace (length (position_history self) - 1000)%nat with 0%nat by lia.
    reflexivity.
  - cbn [fold_left fst snd fixes_of flat_map].
    fold (fixes_of events).
    set (h := position_history self) in *.
    set (self1 := remember_position self t (Some p)).
    assert (Hstep : position_history self1 =
                    if (1000 <? length (h ++ [(t, p)]))%nat
                    then tl (h ++ [(t, p)]) else h ++ [(t, p)]) by reflexivity.
    assert (Hl : length (h ++ [(t, p)]) = S (length h))
      by (rewrite length_app; cbn; lia).
    destruct (Nat.ltb_spec 1000 (length (h ++ [(t, p)]))) as [Hover|Hfits].
    + assert (Hh : length h = 1000%nat) by lia.
      rewrite IH; rewrite Hstep.
      2:{ destruct (h ++ [(t, p)]) eqn:E; cbn in *; lia. }
      destruct h as [|x h']; [cbn in Hh; lia|].
      cbn [app tl]. cbn [app] in Hl.
      replace (([(t, p)] ++ fixes_of events)) with ((t, p) :: fixes_of events)
        by reflexivity.
      rewrite <- app_assoc. cbn [app].
      replace (length (x :: h' ++ (t, p) :: fixes_of events) - 1000)%nat
        with (S (length (h' ++ (t, p) :: fixes_of events) - 1000))%nat.
      2:{ cbn [length]. rewrite !length_app in *. cbn [length] in *. lia. }
      reflexivity.
    + rewrite IH; rewrite Hstep; [|lia].
      rewrite <- app_assoc. reflexivity.
  - cbn [fold_left fst snd fixes_of flat_map remember_position].
    apply IH. assumption.
Qed.

(** X20.  The position history is a sliding window: after any run of
    calls it holds the last 1000 of the fixes recorded so far (fewer if
    there are fewer), never more than 1000; calls without a fix change
    nothing, and [last_position] is the latest fix. *)
Theorem history_keeps_the_last_thousand_fixes
    (self : UWBLocalizerApp) (events : list (R * option position)) :
  (length (position_history self) <= 1000)%nat ->
  position_history (replay self events) =
    skipn (length (position_history self ++ fixes_of events) - 1000)
          (position_history self ++ fixes_of events) /\
  (length (position_history (replay self events)) <= 1000)%nat /\
  (fixes_of events = [] -> replay self events = self) /\
  last_position (replay self events) =
    match rev (fixes_of events) with
    | (_, p) :: _ => Some p
    | [] => last_position self
    end.
Proof.
  intros Hlen. pose proof (@replay_history events self Hlen) as H.
  split; [exact H|]. split; [rewrite H, length_skipn; lia|]. split.
  - clear H Hlen. revert self. unfold replay.
    induction events as [|[t [p|]] events IH]; intros self Hnone;
      [reflexivity|discriminate|].
    cbn [fold_left fst snd remember_position]. apply IH. exact Hnone.
  - clear H Hlen. revert self. unfold replay.
    induction events as [|[t [p|]] events IH]; intros self; [reflexivity| |].
    + cbn [fold_left fst snd fixes_of flat_map app]. rewrite IH.
      fold (fixes_of events). cbn [rev].
      destruct (rev (fixes_of events)) as [|[t' p'] l]; reflexivity.
    + cbn [fold_left fst snd fixes_of flat_map remember_position app].
      apply IH.
Qed.

Lemma history_keeps_the_last_thousand_fixes_witness :
  position_history (replay fresh_app three_calls) =
    skipn (length (position_history fresh_app ++ fixes_of three_calls) - 1000)
          (position_history fresh_app ++ fixes_of three_calls) /\
  (length (position_history (replay fresh_app three_calls)) <= 1000)%nat /\
  (fixes_of three_calls = [] -> replay fresh_app three_calls = fresh_app) /\
  last_position (replay fresh_app three_calls) =
    match rev (fixes_of three_calls) with
    | (_, p) :: _ => Some p
    | [] => last_position fresh_app
    end.
Proof.
  refine (@history_keeps_the_last_thousand_fixes fresh_app three_calls _).
  cbn. lia.
Defined.

Lemma dict_set_In {V} (d : dict V) (k k' : Z) (v v' : V) :
  In (k, v) (dict_set d k' v') -> (k = k' /\ v = v') \/ In (k, v) d.
Proof.
  induction d as [|[k0 v0] d IH]; cbn.
  - intros [H|[]]. injection H as <- <-. auto.
  - destruct (Z.eqb_spec k' k0) as [->|Hne]; cbn.
    + intros [H|H]; [injection H as <- <-; auto|auto].
    + intros [H|H]; [auto|]. destruct (IH H); auto.
Qed.

Lemma dict_set_keys {V} (d : dict V) (k k' : Z) (v' : V) :
  In k (keys (dict_set d k' v')) -> k = k' \/ In k (keys d).
Proof.
  induction d as [|[k0 v0] d IH]; cbn.
  - intros [H|[]]; auto.
  - destruct (Z.eqb_spec k' k0) as [->|Hne]; cbn.
    + intros [H|H]; auto.
    + intros [H|H]; [auto|]. destruct (IH H); auto.
Qed.

Lemma dict_set_NoDup {V} (d : dict V) (k : Z) (v : V) :
  NoDup (keys d) -> NoDup (keys (dict_set d k v)).
Proof.
  induction d as [|[k0 v0] d IH]; cbn; intros H.
  - constructor; [intros []|constructor].
  - inversion H as [|? ? Hnot Hnd]; subst.
    destruct (Z.eqb_spec k k0) as [->|Hne]; cbn.
    + constructor; assumption.
    + constructor; [|auto]. intros Hin.
      destruct (dict_set_keys _ _ _ _ Hin) as [->|Hin']; [congruence|contradiction].
Qed.

Lemma dict_mem_set {V} (d : dict V) (k k' : Z) (v : V) :
  dict_mem (dict_set d k' v) k = (Z.eqb k k' || dict_mem d k)%bool.
Proof.
  unfold dict_mem. destruct (Z.eqb_spec k k') as [->|Hne].
  - rewrite dict_get_set_same. reflexivity.
  - rewrite dict_get_set_other by assumption. reflexivity.
Qed.

Section ParseProperties.

Variable py_int : string -> result Z.

Lemma parse_anchors_spec (config : list (string * toml_value)) :
  forall acc out,
    parse_anchors py_int config acc = inr out ->
    NoDup (keys acc) ->
    NoDup (keys out) /\
    (length out <= length acc + length config)%nat /\
    (forall k p, In (k, p) out ->
                 In (k, p) acc \/
                 exists s x y z,
                   In (s, TomlList [x; y; z]) config /\ py_int s = inr k /\
                   p = (x, y, z)) /\
    (forall s v, In (s, v) config ->
                 exists k x y z,
                   v = TomlList [x; y; z] /\ py_int s = inr k /\
                   dict_mem out k = true) /\
    (forall k, dict_mem acc k = true -> dict_mem out k = true).
Proof.
  induction config as [|[s v] config IH]; intros acc out H Hnd.
  - cbn in H. injection H as <-. cbn. rewrite Nat.add_0_r.
    repeat split; auto. intros s v [].
  - cbn [parse_anchors] in H.
    destruct (py_int s) as [e|k] eqn:Ek; [discriminate|]. cbn [rbind] in H.
    destruct v as [[|x [|y [|z [|? ?]]]]|]; try discriminate.
    destruct (IH _ _ H (dict_set_NoDup acc k (x, y, z) Hnd))
      as (Hnd' & Hlen & Hsrc & Hall & Hmono).
    split; [assumption|]. split.
    { pose proof (dict_set_length acc k (x, y, z)). cbn [length]. lia. }
    split; [|split].
    + intros k0 p Hin. destruct (Hsrc k0 p Hin) as [Hacc|(s0 & x0 & y0 & z0 & Hc & Hi & Hp)].
      * destruct (dict_set_In _ _ _ _ _ Hacc) as [[-> ->]|Hold]; [|auto].
        right. exists s, x, y, z. split; [left; reflexivity|auto].
      * right. exists s0, x0, y0, z0. split; [right; assumption|auto].
    + intros s0 v0 [Heq|Hin].
      * injection Heq as <- <-. exists k, x, y, z.
        split; [reflexivity|]. split; [assumption|].
        apply Hmono. rewrite dict_mem_set, Z.eqb_refl. reflexivity.
      * apply Hall. assumption.
    + intros k0 Hmem. apply Hmono. rewrite dict_mem_set, Hmem.
      apply orb_true_r.
Qed.

(** X21.  Parsing the anchor table.  When [_parse_anchor_positions]
    succeeds, the ids of the result are distinct and no more than the table
    has entries, every result entry is the triple of some table entry whose
    key converts to that id, and every table entry is a three-element list
    whose id is in the result; if fewer than three distinct ids remain, the
    engine is not created. *)
Theorem parsed_anchors_come_from_the_table
    (config : list (string * toml_value)) (out : dict position) :
  _parse_anchor_positions py_int config = inr out ->
  NoDup (keys out) /\
  (length out <= length config)%nat /\
  (forall k p, In (k, p) out ->
               exists s x y z,
                 In (s, TomlList [x; y; z]) config /\ py_int s = inr k /\
                 p = (x, y, z)) /\
  (forall s v, In (s, v) config ->
               exists k x y z,
                 v = TomlList [x; y; z] /\ py_int s = inr k /\
                 dict_mem out k = true) /\
  ((length out < 3)%nat ->
   forall ct params zs mn mx,
     _create_localization_engine py_int config ct params zs mn mx =
       inl (ValueError "At least 3 anchor positions are required for trilateration")).
Proof.
  intros H. pose proof H as Hparse. unfold _parse_anchor_positions in H.
  destruct (@parse_anchors_spec config [] out H) as (Hnd & Hlen & Hsrc & Hall & _);
    [constructor|].
  split; [assumption|]. split; [exact Hlen|]. split; [|split; [assumption|]].
  - intros k p Hin. destruct (Hsrc k p Hin) as [[]|Hs]. assumption.
  - intros Hfew ct params zs mn mx. unfold _create_localization_engine.
    rewrite Hparse. cbn [rbind]. unfold LocalizationEngine_init.
    rewrite (proj2 (Nat.ltb_lt _ _) Hfew). reflexivity.
Qed.

End ParseProperties.

Lemma parsed_anchors_come_from_the_table_witness :
  NoDup (keys [(1%Z, (3, 0, 0)); (2%Z, (0, 3, 0))]) /\
  (length [(1%Z, (3, 0, 0)); (2%Z, (0, 3, 0))] <= length colliding_table)%nat /\
  _create_localization_engine sample_int colliding_table "none" [] 0 0 100 =
    inl (ValueError "At least 3 anchor positions are required for trilateration").
Proof.
  destruct (@parsed_anchors_come_from_the_table sample_int colliding_table
              [(1%Z, (3, 0, 0)); (2%Z, (0, 3, 0))] eq_refl)
    as (Hnd & Hlen & _ & _ & Hfew).
  split; [exact Hnd|]. split; [exact Hlen|].
  apply Hfew. cbn. lia.
Defined.

Section SinkProperties.

Import OutputAdapters.

Variable W : Type.

Lemma for_each_swallow {A} (l : list A) (body : A -> M W unit) :
  forall w,
    for_each l (fun a => swallow (body a)) w =
      (inr tt, fold_left (fun w a => snd (body a w)) l w).
Proof.
  induction l as [|a l IH]; intros w; [reflexivity|].
  cbn [for_each fold_left]. unfold bind.
  unfold swallow at 1. destruct (body a w) as [[e|[]] w']; cbn [snd]; apply IH.
Qed.

(** X22.  [MultiOutputAdapter] never raises from [send_position] or
    [close], and an adapter that raises does not keep the later ones from
    being called: the effect is that of calling every adapter in order. *)
Theorem multi_output_reaches_every_adapter
    (adapters : list (OutputAdapter W)) (position : Core.position)
    (timestamp : option R) (w : W) :
  MultiOutputAdapter_send_position adapters position timestamp w =
    (inr tt,
     fold_left (fun w a => snd (send_position a position timestamp w)) adapters w) /\
  MultiOutputAdapter_close adapters w =
    (inr tt, fold_left (fun w a => snd (close a w)) adapters w).
Proof.
  split.
  - unfold MultiOutputAdapter_send_position.
    apply (for_each_swallow adapters (fun a => send_position a position timestamp)).
  - unfold MultiOutputAdapter_close.
    apply (for_each_swallow adapters (fun a => close a)).
Qed.

End SinkProperties.

End MainProperties.

